(** * deepviz: the model parser and the residual-block decorator

    A shallow embedding of
    - [backend/src/utils/model_parser.py]  (class [ModelParser]) and
    - [backend/src/decorator/model_parse_decorator.py]  ([residual_block]),
    and the properties of the two that the specification states.

    The host framework ([torch.nn]) is not part of the repository.  A module
    instance is represented by what the parser observes of it: its class
    name, what [hasattr]/[getattr] answer, what
    [named_parameters(recurse=False)] yields and what [named_children()]
    yields. *)

From Stdlib Require Import ZArith String List.
From stdpp Require Import base option list strings gmap.

Open Scope string_scope.
Set Warnings "-register-all".

(** ** Python values and exceptions *)

(** The attribute values the parser copies and tests for truth. *)
Inductive pyval : Type :=
| PyNone
| PyBool (b : bool)
| PyInt (z : Z)
| PyStr (s : string)
| PyTuple (items : list pyval)
| PyList (items : list pyval)
| PyOpaque (repr : string) (truth : bool).

(** [bool(v)]: Python's truth value testing. An opaque object carries the
    answer of its own [__bool__]/[__len__]. *)
Definition truthy (v : pyval) : bool :=
  match v with
  | PyNone => false
  | PyBool b => b
  | PyInt z => negb (z =? 0)%Z
  | PyStr s => negb (String.eqb s "")
  | PyTuple items | PyList items =>
      match items with [] => false | _ :: _ => true end
  | PyOpaque _ t => t
  end.

Inductive Exn : Type :=
| TypeError (msg : string)
| KeyError (key : string)
| OSError (msg : string)
| TOMLDecodeError.

(** A call either returns or raises. *)
Inductive result (A : Type) : Type :=
| Ok (a : A)
| Raise (e : Exn).
Arguments Ok {A} a.
Arguments Raise {A} e.

Definition bind {A B} (r : result A) (k : A -> result B) : result B :=
  match r with
  | Ok a => k a
  | Raise e => Raise e
  end.

Definition is_ok {A} (r : result A) : bool :=
  match r with Ok _ => true | Raise _ => false end.

(** ** Insertion-ordered dictionaries

    [OrderedDict] and [dict] with string keys: an association list without
    repeated keys in insertion order. Assigning to a key that is present
    replaces its value where it stands. *)
Module OrderedDict.

Definition t (V : Type) : Type := list (string * V).

Fixpoint set {V} (k : string) (v : V) (d : t V) : t V :=
  match d with
  | [] => [(k, v)]
  | (k', v') :: rest =>
      if String.eqb k k' then (k', v) :: rest
      else (k', v') :: set k v rest
  end.

Fixpoint get {V} (k : string) (d : t V) : option V :=
  match d with
  | [] => None
  | (k', v') :: rest => if String.eqb k k' then Some v' else get k rest
  end.

Definition keys {V} (d : t V) : list string := map fst d.

(** [{k: v for k, v in items}] *)
Definition of_items {V} (items : list (string * V)) : t V :=
  fold_left (fun d kv => set (fst kv) (snd kv) d) items [].

End OrderedDict.

(** ** Module instances of the host framework

    [attrs] holds every name attribute lookup on the instance answers for
    (fields set by constructors, and whatever else the framework resolves
    by name), with the value [getattr] returns. Children come in declared
    order. *)

Inductive Module : Type :=
  mkModule {
      class_name : string;                       (* layer.__class__.__name__ *)
      attrs : gmap string pyval;                 (* hasattr / getattr *)
      own_parameters : list (string * list Z);   (* direct parameters: name, shape *)
      named_children : list (string * Module)    (* layer.named_children() *)
    }.

Definition getattr (layer : Module) (attr : string) : option pyval :=
  attrs layer !! attr.

Definition hasattr (layer : Module) (attr : string) : bool :=
  match getattr layer attr with Some _ => true | None => false end.

(** [layer.named_parameters(recurse=...)] as [(name, list(v.shape))] pairs:
    without recursion the module's own parameters, with recursion also those
    of every descendant under the dotted path of child names. *)
Fixpoint named_parameters (recurse : bool) (layer : Module)
  : list (string * list Z) :=
  own_parameters layer ++
  (if recurse then
     flat_map
       (fun nc =>
          map (fun kv => (fst nc ++ "." ++ fst kv, snd kv))
              (named_parameters true (snd nc)))
       (named_children layer)
   else []).

(** ** The parser's output

    The dictionary [_parse_layers] returns, by key, and the dictionary under
    its [residual_connection] key. ([children] is inserted before or after
    the two residual entries depending on the branch taken; nothing below
    depends on the order of these keys.) *)

Inductive LayerNode : Type :=
  mkLayerNode {
      layer_name : string;
      layer_type : string;
      parameters : OrderedDict.t (list Z);
      attributes : OrderedDict.t pyval;
      is_residual_block : bool;
      residual_connection : option ResidualConnection;
      children : list LayerNode
    }
with ResidualConnection : Type :=
  mkResidualConnection {
      input_source : string;
      fusion_type : pyval;
      adjust_layer : option LayerNode
    }.

(** ** [ModelParser] *)

(** The four entries [_get_layer_info] puts into [info]. *)
Record LayerInfo : Type :=
  mkLayerInfo {
      info_layer_name : string;
      info_layer_type : string;
      info_parameters : OrderedDict.t (list Z);
      info_attributes : OrderedDict.t pyval
    }.

(** [parent_input or "block_input"] *)
Definition or_block_input (parent_input : option string) : string :=
  match parent_input with
  | None => "block_input"
  | Some s => if String.eqb s "" then "block_input" else s
  end.

Section Parser.

(** [self.attributes_keep], iterated as a list of attribute names. *)
Variable attributes_keep : list string.

Definition _get_layer_attributes (layer : Module) : OrderedDict.t pyval :=
  fold_left
    (fun attrs attr =>
       if hasattr layer attr then
         match getattr layer attr with
         | Some v => OrderedDict.set attr v attrs
         | None => attrs
         end
       else attrs)
    attributes_keep [].

Definition _get_layer_info (layer : Module) (name : string) : LayerInfo :=
  {| info_layer_name := name;
     info_layer_type := class_name layer;
     info_parameters := OrderedDict.of_items (named_parameters false layer);
     info_attributes := _get_layer_attributes layer |}.

(** [hasattr(layer, 'residual') and layer.residual] *)
Definition residual_marker (layer : Module) : bool :=
  hasattr layer "residual" &&
  match getattr layer "residual" with
  | Some v => truthy v
  | None => false
  end.

(** [layer.fusion_type if hasattr(layer, 'fusion_type') else "add"] *)
Definition fusion_type_of (layer : Module) : pyval :=
  if hasattr layer "fusion_type" then
    match getattr layer "fusion_type" with
    | Some v => v
    | None => PyStr "add"
    end
  else PyStr "add".

(** The state of the loop over the children of a residual block:
    [info["residual_connection"]["adjust_layer"]] and [main_branch]. *)
Record BlockLoop : Type :=
  mkBlockLoop {
      loop_adjust_layer : option LayerNode;
      loop_main_branch : list LayerNode
    }.

Fixpoint _parse_layers (layer : Module) (name : string)
         (parent_input : option string) {struct layer} : LayerNode :=
  let info := _get_layer_info layer name in
  if residual_marker layer then
    let st :=
      fold_left
        (fun st nc =>
           match nc with
           | (child_name, child_module) =>
               if String.eqb child_name "adjust" then
                 {| loop_adjust_layer :=
                      Some (_parse_layers child_module child_name parent_input);
                    loop_main_branch := loop_main_branch st |}
               else
                 {| loop_adjust_layer := loop_adjust_layer st;
                    loop_main_branch :=
                      loop_main_branch st ++
                      [_parse_layers child_module child_name (Some name)] |}
           end)
        (named_children layer)
        {| loop_adjust_layer := None; loop_main_branch := [] |} in
    {| layer_name := info_layer_name info;
       layer_type := info_layer_type info;
       parameters := info_parameters info;
       attributes := info_attributes info;
       is_residual_block := true;
       residual_connection :=
         Some {| input_source := or_block_input parent_input;
                 fusion_type := fusion_type_of layer;
                 adjust_layer := loop_adjust_layer st |};
       children := loop_main_branch st |}
  else
    {| layer_name := info_layer_name info;
       layer_type := info_layer_type info;
       parameters := info_parameters info;
       attributes := info_attributes info;
       is_residual_block := false;
       residual_connection := None;
       children :=
         map (fun nc =>
                match nc with
                | (child_name, child) =>
                    _parse_layers child child_name (Some name)
                end)
             (named_children layer) |}.

End Parser.

(** ** Configuration values *)

(** What [tomllib.load] returns: tables are [dict]s, arrays are [list]s. *)
Inductive TomlValue : Type :=
| TStr (s : string)
| TInt (z : Z)
| TBool (b : bool)
| TOther (repr : string)                       (* floats, dates and times *)
| TArray (items : list TomlValue)
| TTable (entries : list (string * TomlValue)).

(** [d[key]] *)
Definition subscript (d : TomlValue) (key : string) : result TomlValue :=
  match d with
  | TTable entries =>
      match OrderedDict.get key entries with
      | Some v => Ok v
      | None => Raise (KeyError key)
      end
  | TStr _ => Raise (TypeError "string indices must be integers")
  | TArray _ => Raise (TypeError "list indices must be integers or slices")
  | TInt _ | TBool _ | TOther _ => Raise (TypeError "object is not subscriptable")
  end.

(** A file at a path, as [open(path, "rb")] finds it. *)
Inductive File : Type :=
| Unreadable
| Readable (content : string).

(** [open(config_path, "rb")], reading the content. *)
Definition open_rb (fs : gmap string File) (path : string) : result string :=
  match fs !! path with
  | None => Raise (OSError "No such file or directory")
  | Some Unreadable => Raise (OSError "Permission denied")
  | Some (Readable content) => Ok content
  end.

(** Arguments of [ModelParser.__call__]. *)
Inductive PyObject : Type :=
| ObjModule (m : Module)        (* isinstance(model, nn.Module) *)
| ObjOther (v : pyval).

Module ModelParser.

Record t : Type := mk { attributes_keep : TomlValue }.

Section Init.

(** [tomllib.load] on the content of a file: the top-level table, or
    [None] where it raises [TOMLDecodeError]. *)
Variable tomllib_load : string -> option (list (string * TomlValue)).

Definition __init__ (fs : gmap string File) (config_path : string)
  : result t :=
  bind (open_rb fs config_path) (fun f =>
  bind (match tomllib_load f with
        | Some entries => Ok (TTable entries)
        | None => Raise TOMLDecodeError
        end) (fun config =>
  bind (subscript config "attributes") (fun attributes =>
  bind (subscript attributes "keep") (fun keep =>
  Ok {| attributes_keep := keep |})))).

End Init.

(** The names [for attr in self.attributes_keep] passes to [hasattr]: the
    elements of a list, the characters of a string, the keys of a table.
    [hasattr] raises [TypeError] on a name that is not a string. *)
Fixpoint names_of_items (items : list TomlValue) : result (list string) :=
  match items with
  | [] => Ok []
  | TStr s :: rest => bind (names_of_items rest) (fun names => Ok (s :: names))
  | _ :: _ => Raise (TypeError "attribute name must be string")
  end.

Definition names_of_chars (s : string) : list string :=
  map (fun c => String c EmptyString) (list_ascii_of_string s).

Definition keep_names (keep : TomlValue) : result (list string) :=
  match keep with
  | TArray items => names_of_items items
  | TStr s => Ok (names_of_chars s)
  | TTable entries => Ok (map fst entries)
  | TInt _ | TBool _ | TOther _ => Raise (TypeError "object is not iterable")
  end.

(** [_get_layer_attributes] runs its loop over [attributes_keep] for the
    root before anything else is visited, so the loop raises for the root
    or for no module: the names are resolved once, ahead of the walk. *)
Definition __call__ (self : t) (model : PyObject) : result LayerNode :=
  match model with
  | ObjOther _ => Raise (TypeError "解析器仅支持torch.nn.Module子类")
  | ObjModule m =>
      bind (keep_names (attributes_keep self)) (fun names =>
      Ok (_parse_layers names m "root" None))
  end.

End ModelParser.

(** ** Classes and their construction

    What [residual_block] reads and writes of a class: its method
    resolution order and the [__init__] entry of its own [__dict__]. Classes
    live in a store under their identity, so that an update in place is
    seen by every holder of the class. *)

Definition classid : Type := nat.

(** The identity of [torch.nn.Module]. *)
Definition nn_Module : classid := 0%nat.

(** An instance under construction: its attribute assignments, in order. *)
Definition Instance : Type := list (string * pyval).

(** [self.name = value] *)
Definition setattr (self : Instance) (name : string) (value : pyval) : Instance :=
  (self ++ [(name, value)])%list.

(** [self.__dict__] *)
Definition instance_dict (self : Instance) : OrderedDict.t pyval :=
  OrderedDict.of_items self.

(** Statements of a constructor written in a class body. *)
Inductive Stmt : Type :=
| SetAttr (name : string) (value : pyval)      (* self.name = value *)
| SuperInit (args : list pyval)                (* super().__init__ on args *)
| RaiseStmt (e : Exn).

(** Function objects that can stand at [__init__]. *)
Inductive Func : Type :=
| ObjectInit                                   (* object.__init__ *)
| Def (owner : classid) (body : list pyval -> list Stmt)
                                               (* def __init__ in the body of [owner] *)
| NewInit (original_init : Func) (fusion_type : pyval).
                                               (* the closure [new_init] *)

Record PyClass : Type :=
  mkPyClass {
      mro : list classid;                      (* cls.__mro__, without object *)
      own_init : option Func                   (* cls.__dict__.get("__init__") *)
    }.

(** [cls.__init__] looked up along an MRO. *)
Fixpoint lookup_init (classes : gmap classid PyClass) (order : list classid)
  : Func :=
  match order with
  | [] => ObjectInit
  | c :: rest =>
      match classes !! c with
      | Some {| own_init := Some f |} => f
      | _ => lookup_init classes rest
      end
  end.

(** The classes [super()] searches: those after [owner] in the MRO of the
    instance's type. *)
Fixpoint after (owner : classid) (order : list classid) : option (list classid) :=
  match order with
  | [] => None
  | c :: rest => if Nat.eqb c owner then Some rest else after owner rest
  end.

(** [cls.__init__] *)
Definition class_init (classes : gmap classid PyClass) (cls : classid) : Func :=
  match classes !! cls with
  | Some c => lookup_init classes (mro c)
  | None => ObjectInit
  end.

(** [cls.__init__ = f] *)
Definition set_init (classes : gmap classid PyClass) (cls : classid) (f : Func)
  : gmap classid PyClass :=
  match classes !! cls with
  | Some c => <[cls := {| mro := mro c; own_init := Some f |}]> classes
  | None => classes
  end.

Module Decorator.

Section ResidualBlock.

Variable fusion_type : pyval.

(** The body of [new_init]; [original_init] is how the captured
    constructor is called. *)
Definition new_init
           (original_init : list pyval -> Instance -> option (result Instance))
           (args : list pyval) (self : Instance)
  : option (result Instance) :=
  match original_init args self with
  | Some (Ok self) =>
      let self := setattr self "residual" (PyBool true) in
      let self := setattr self "fusion_type" fusion_type in
      Some (Ok self)
  | r => r
  end.

Definition issubclass (classes : gmap classid PyClass)
           (cls base : classid) : result bool :=
  match classes !! cls with
  | Some c => Ok (existsb (Nat.eqb base) (mro c))
  | None => Raise (TypeError "issubclass() arg 1 must be a class")
  end.

(** [decorator(cls)]: the class it returns and the classes afterwards.
    [wraps] copies the name and the documentation of [original_init] to
    [new_init] and changes nothing of what it does. *)
Definition decorator (classes : gmap classid PyClass) (cls : classid)
  : result (classid * gmap classid PyClass) :=
  bind (issubclass classes cls nn_Module) (fun is_module =>
  if negb is_module then
    Raise (TypeError "残差块装饰器仅支持nn.Module子类")
  else
    let original_init := class_init classes cls in
    let classes := set_init classes cls (NewInit original_init fusion_type) in
    Ok (cls, classes)).

End ResidualBlock.

Definition residual_block (fusion_type : pyval) := decorator fusion_type.

End Decorator.

(** The statements of a constructor, in order; [super_init] is what
    [super().__init__] calls. *)
Fixpoint exec (super_init : list pyval -> Instance -> option (result Instance))
         (stmts : list Stmt) (self : Instance) : option (result Instance) :=
  match stmts with
  | [] => Some (Ok self)
  | SetAttr name value :: rest => exec super_init rest (setattr self name value)
  | RaiseStmt e :: _ => Some (Raise e)
  | SuperInit args :: rest =>
      match super_init args self with
      | Some (Ok self) => exec super_init rest self
      | r => r
      end
  end.

(** Calling a function object as the constructor of an instance whose type
    has the MRO [order]. [depth] bounds the nesting of calls, as the
    interpreter's recursion limit does; [None] is the limit exceeded. *)
Fixpoint call_init (depth : nat) (classes : gmap classid PyClass)
         (order : list classid) (f : Func) (args : list pyval)
         (self : Instance) {struct depth} : option (result Instance) :=
  match depth with
  | O => None
  | S depth =>
      match f with
      | ObjectInit => Some (Ok self)
      | Def owner body =>
          exec (fun args' self' =>
                  match after owner order with
                  | None =>
                      Some (Raise (TypeError
                        "super(type, obj): obj must be an instance or subtype of type"))
                  | Some tail =>
                      call_init depth classes order
                                (lookup_init classes tail) args' self'
                  end)
               (body args) self
      | NewInit original_init fusion_type =>
          Decorator.new_init fusion_type
            (call_init depth classes order original_init) args self
      end
  end.

(** Calling the class [cls] on [args]. *)
Definition instantiate (depth : nat) (classes : gmap classid PyClass)
           (cls : classid) (args : list pyval) : option (result Instance) :=
  match classes !! cls with
  | Some c => call_init depth classes (mro c) (class_init classes cls) args []
  | None => Some (Raise (TypeError "object is not callable"))
  end.

(** ** Notions the statements use *)

(** The names of a list, each at the place of its first occurrence. *)
Fixpoint distinct (names : list string) : list string :=
  match names with
  | [] => []
  | a :: rest => a :: filter (fun b => b ≠ a) (distinct rest)
  end.

(** Every node of a tree: the node, those under its adjust layer, those
    under its children. *)
Fixpoint nodes (n : LayerNode) : list LayerNode :=
  n ::
  (match residual_connection n with
   | Some rc => match adjust_layer rc with Some a => nodes a | None => [] end
   | None => []
   end ++ flat_map nodes (children n))%list.

(** A module and all its descendants. *)
Fixpoint submodules (m : Module) : list Module :=
  m :: flat_map (fun nc => submodules (snd nc)) (named_children m).

(** The child a loop over [cs] meets last under [name]. *)
Fixpoint find_last (name : string) (cs : list (string * Module)) : option Module :=
  match cs with
  | [] => None
  | (cn, c) :: rest =>
      match find_last name rest with
      | Some c' => Some c'
      | None => if String.eqb cn name then Some c else None
      end
  end.

(** The children of a block other than the one named [adjust]. *)
Definition main_branch_children (cs : list (string * Module))
  : list (string * Module) :=
  filter (fun nc => fst nc ≠ "adjust") cs.

(** The two shapes a node can have. *)
Definition plain_shape (n : LayerNode) : Prop :=
  is_residual_block n = false ∧ residual_connection n = None.

Definition residual_shape (n : LayerNode) : Prop :=
  is_residual_block n = true ∧ residual_connection n ≠ None.

(** Names as the framework keeps them: keys of a dictionary. *)
Definition unique_child_names (m : Module) : Prop :=
  NoDup (map fst (named_children m)).

Definition unique_parameter_names (m : Module) : Prop :=
  NoDup (map fst (own_parameters m)).

(** The [keep] field of the [attributes] table of a configuration. *)
Definition keep_field (entries : list (string * TomlValue)) : option TomlValue :=
  match OrderedDict.get "attributes" entries with
  | Some (TTable attributes) => OrderedDict.get "keep" attributes
  | _ => None
  end.

(** [base] is among the classes [cls] inherits from, [cls] included. *)
Definition subclass_of (classes : gmap classid PyClass) (cls base : classid)
  : Prop :=
  ∃ c, classes !! cls = Some c ∧ base ∈ mro c.

(** An MRO along which [__init__] is taken from [cls]: [cls] is in it, and
    no class before [cls] has an [__init__] of its own. The MRO of [cls]
    itself starts with [cls]. *)
Definition inherits_init (classes : gmap classid PyClass)
           (order : list classid) (cls : classid) : Prop :=
  ∃ before rest,
    order = (before ++ cls :: rest)%list ∧
    Forall (fun b => b ≠ cls ∧
                     match classes !! b with
                     | Some {| own_init := Some _ |} => False
                     | _ => True
                     end) before.

(** A construction followed by exactly the two assignments of [new_init]:
    what was raised stays raised. *)
Definition stamped (fusion_type : pyval) (r : option (result Instance))
  : option (result Instance) :=
  match r with
  | Some (Ok self) =>
      Some (Ok (self ++ [("residual", PyBool true);
                         ("fusion_type", fusion_type)])%list)
  | _ => r
  end.

(** The configurations [ModelParser] cannot be built from: no file, a file
    that cannot be read, a document that does not parse, a document without
    the [keep] field. *)
Definition config_unusable
           (tomllib_load : string → option (list (string * TomlValue)))
           (fs : gmap string File) (config_path : string) : Prop :=
  match fs !! config_path with
  | None => True
  | Some Unreadable => True
  | Some (Readable content) =>
      match tomllib_load content with
      | None => True
      | Some entries => keep_field entries = None
      end
  end.

(** ** The one-level variant of the walk

    [_parse_residual_layer] is not called by [__call__]. It returns a
    dictionary of three keys, and lists the children by [_get_layer_info]
    without descending into them. *)

Record ResidualLayerConnection : Type :=
  mkResidualLayerConnection {
      rl_input_source : string;
      rl_fusion_type : pyval;
      rl_adjust_layer : option LayerInfo
    }.

Record ResidualLayer : Type :=
  mkResidualLayer {
      rl_is_residual_block : bool;
      rl_residual_connection : ResidualLayerConnection;
      rl_children : list LayerInfo
    }.

(** The state of its loop: [info["residual_connection"]["adjust_layer"]]
    and [main_branch]. *)
Record LayerLoop : Type :=
  mkLayerLoop {
      layer_loop_adjust : option LayerInfo;
      layer_loop_main_branch : list LayerInfo
    }.

Definition _parse_residual_layer (attributes_keep : list string)
           (layer : Module) (parent_input : option string) : ResidualLayer :=
  let st :=
    fold_left
      (fun st nc =>
         match nc with
         | (child_name, child_module) =>
             if String.eqb child_name "adjust" then
               {| layer_loop_adjust :=
                    Some (_get_layer_info attributes_keep child_module child_name);
                  layer_loop_main_branch := layer_loop_main_branch st |}
             else
               {| layer_loop_adjust := layer_loop_adjust st;
                  layer_loop_main_branch :=
                    layer_loop_main_branch st ++
                    [_get_layer_info attributes_keep child_module child_name] |}
         end)
      (named_children layer)
      {| layer_loop_adjust := None; layer_loop_main_branch := [] |} in
  {| rl_is_residual_block := true;
     rl_residual_connection :=
       {| rl_input_source := or_block_input parent_input;
          rl_fusion_type := fusion_type_of layer;
          rl_adjust_layer := layer_loop_adjust st |};
     rl_children := layer_loop_main_branch st |}.

(** ** The helpers of the test suite

    [has_residual_block] and [find_all_residual_blocks] of
    [backend/test/test_ModelParser.py] walk every dictionary they reach
    through dictionary values and through the items of lists: of a node
    these are its [parameters] (shapes, lists of integers), its
    [attributes], its [residual_connection] with the [adjust_layer] below
    it, and its [children]. A value of [pyval] is no dictionary and holds
    none. *)

(** [v is True] for the value [d.get(key)] found. *)
Definition is_True (v : option pyval) : bool :=
  match v with
  | Some (PyBool true) => true
  | _ => false
  end.

(** The dictionaries the search can return: a node, or the attributes of
    one. *)
Definition Found : Type := (LayerNode + OrderedDict.t pyval)%type.

(** [find_all_residual_blocks] on an [attributes] dictionary. *)
Definition find_all_in_attributes (attrs : OrderedDict.t pyval) : list Found :=
  if is_True (OrderedDict.get "is_residual_block" attrs) then [inr attrs] else [].

Fixpoint find_all_residual_blocks (od : LayerNode) : list Found :=
  ((if is_residual_block od then [inl od] else []) ++
   find_all_in_attributes (attributes od) ++
   match residual_connection od with
   | Some rc =>
       match adjust_layer rc with
       | Some a => find_all_residual_blocks a
       | None => []
       end
   | None => []
   end ++
   flat_map find_all_residual_blocks (children od))%list.

Fixpoint has_residual_block (ordered_dict : LayerNode) : bool :=
  is_residual_block ordered_dict ||
  is_True (OrderedDict.get "is_residual_block" (attributes ordered_dict)) ||
  match residual_connection ordered_dict with
  | Some rc =>
      match adjust_layer rc with
      | Some a => has_residual_block a
      | None => false
      end
  | None => false
  end ||
  existsb has_residual_block (children ordered_dict).

(** ** More notions the statements use *)

(** The first four entries of a node. *)
Definition info_of (n : LayerNode) : LayerInfo :=
  {| info_layer_name := layer_name n;
     info_layer_type := layer_type n;
     info_parameters := parameters n;
     info_attributes := attributes n |}.

(** Child names are unique in a module and in every module below it. *)
Definition unique_names_throughout (m : Module) : Prop :=
  Forall unique_child_names (submodules m).

(** What a node contributes to [find_all_residual_blocks] by itself. *)
Definition found_at (n : LayerNode) : list Found :=
  ((if is_residual_block n then [inl n] else []) ++
   find_all_in_attributes (attributes n))%list.

(** What attribute lookup answers on an instance whose fields were set by
    plain assignment, as those of a constructor's [self.name = value]: the
    entries of its [__dict__]. *)
Definition attrs_of_instance (self : Instance) : gmap string pyval :=
  list_to_map (instance_dict self).

(** ** Sample inputs

    The modules of [backend/test/test_ModelParser.py], and a block whose
    children are blocks themselves. *)
Module Examples.

Definition Linear (in_features out_features : Z) : Module :=
  {| class_name := "Linear";
     attrs := <["in_features" := PyInt in_features]>
              (<["out_features" := PyInt out_features]> ∅);
     own_parameters := [("weight", [out_features; in_features]);
                        ("bias", [out_features])];
     named_children := [] |}.

Definition SimpleLayer : Module :=
  {| class_name := "SimpleLayer";
     attrs := <["in_features" := PyInt 10]> (<["out_features" := PyInt 20]> ∅);
     own_parameters := [];
     named_children := [("fc", Linear 10 20)] |}.

Definition tagged (label : string) : gmap string pyval :=
  <["residual" := PyBool true]> (<["fusion_type" := PyStr label]> ∅).

Definition ResidualBlock (has_adjust : bool) : Module :=
  {| class_name := "ResidualBlock";
     attrs := tagged "add";
     own_parameters := [];
     named_children :=
       [("main1", Linear 10 10); ("main2", Linear 10 10)] ++
       (if has_adjust then [("adjust", Linear 10 10)] else []) |}.

Definition NestedLayer : Module :=
  {| class_name := "NestedLayer";
     attrs := ∅;
     own_parameters := [];
     named_children := [("block", ResidualBlock false)] |}.

(** A block with a block on its main branch and a block as its adjust
    layer. *)
Definition BlockOfBlocks : Module :=
  {| class_name := "BlockOfBlocks";
     attrs := tagged "concat";
     own_parameters := [("scale", [1%Z])];
     named_children :=
       [("main", ResidualBlock false); ("adjust", ResidualBlock false)] |}.

(** A block whose every child is the adjust layer. *)
Definition AdjustOnly : Module :=
  {| class_name := "AdjustOnly";
     attrs := tagged "add";
     own_parameters := [];
     named_children := [("adjust", Linear 4 4)] |}.

Definition keep : list string := ["in_features"; "out_features"].

(** [model_parse.toml] with the two names above, and what is read of it. *)
Definition config_text : string :=
  "[attributes]
keep = ['in_features', 'out_features']
".

Definition config : list (string * TomlValue) :=
  [("attributes",
    TTable [("keep", TArray [TStr "in_features"; TStr "out_features"])])].

(** A reader that knows this one document. *)
Definition load (content : string) : option (list (string * TomlValue)) :=
  if String.eqb content config_text then Some config else None.

Definition files : gmap string File :=
  <["config/model_parse.toml" := Readable config_text]>
  (<["config/broken.toml" := Readable "[attributes"]>
  (<["config/secret.toml" := Unreadable]> ∅)).

(** [nn.Module]; a class [A] with a constructor of its own; a subclass [B]
    of [A] that inherits the constructor; a subclass [C] of [A] whose
    constructor sets a field and does not call the one of [A]; a subclass
    [D] of [A] whose constructor calls the one of [A]; a class [E] that is
    no module. *)
Definition A : classid := 1%nat.
Definition B : classid := 2%nat.
Definition C : classid := 3%nat.
Definition D : classid := 4%nat.
Definition E : classid := 5%nat.

Definition classes : gmap classid PyClass :=
  <[nn_Module := {| mro := [nn_Module];
                   own_init := Some (Def nn_Module
                     (fun _ => [SetAttr "training" (PyBool true)])) |}]>
  (<[A := {| mro := [A; nn_Module];
            own_init := Some (Def A
              (fun args => [SuperInit []; SetAttr "width" (PyTuple args)])) |}]>
  (<[B := {| mro := [B; A; nn_Module]; own_init := None |}]>
  (<[C := {| mro := [C; A; nn_Module];
            own_init := Some (Def C (fun _ => [SetAttr "depth" (PyInt 2)])) |}]>
  (<[D := {| mro := [D; A; nn_Module];
            own_init := Some (Def D
              (fun args => [SuperInit args; SetAttr "depth" (PyInt 3)])) |}]>
  (<[E := {| mro := [E]; own_init := None |}]> ∅))))).

End Examples.

(** * Properties *)

(** ** Dictionaries *)

Section OrderedDictFacts.

Context {V : Type}.
Implicit Types (d : OrderedDict.t V) (k : string) (v : V).

Lemma od_get_set_eq k v d : OrderedDict.get k (OrderedDict.set k v d) = Some v.
Proof.
  induction d as [|[k' v'] d IH]; simpl.
  - by rewrite String.eqb_refl.
  - destruct (String.eqb k k') eqn:E; simpl; rewrite E; done.
Qed.

Lemma od_get_set_ne k k' v d :
  k ≠ k' → OrderedDict.get k' (OrderedDict.set k v d) = OrderedDict.get k' d.
Proof.
  intros Hne. induction d as [|[k0 v0] d IH]; simpl.
  - destruct (String.eqb k' k) eqn:E; [|done].
    apply String.eqb_eq in E. congruence.
  - destruct (String.eqb k k0) eqn:E; simpl.
    + apply String.eqb_eq in E. subst k0.
      destruct (String.eqb k' k) eqn:E'; [|done].
      apply String.eqb_eq in E'. congruence.
    + by rewrite IH.
Qed.

Lemma od_keys_set k v d :
  OrderedDict.keys (OrderedDict.set k v d) =
    if decide (k ∈ OrderedDict.keys d) then OrderedDict.keys d
    else (OrderedDict.keys d ++ [k])%list.
Proof.
  unfold OrderedDict.keys. induction d as [|[k' v'] d IH]; simpl.
  - done.
  - destruct (String.eqb k k') eqn:E; simpl.
    + apply String.eqb_eq in E. subst k'.
      rewrite decide_True; [done | left].
    + apply String.eqb_neq in E. rewrite IH.
      destruct (decide (k ∈ map fst d)) as [Hin|Hin].
      * rewrite decide_True; [done | by right].
      * rewrite decide_False; [done |].
        intros [?|?]%elem_of_cons; done.
Qed.


Lemma od_of_items_NoDup (items : list (string * V)) :
  NoDup (map fst items) → OrderedDict.of_items items = items.
Proof.
  unfold OrderedDict.of_items.
  assert (G : ∀ acc, NoDup (map fst (acc ++ items)) →
              fold_left (fun d kv => OrderedDict.set (fst kv) (snd kv) d) items acc
              = (acc ++ items)%list).
  { induction items as [|[k v] items IH]; intros acc Hnd; simpl.
    - by rewrite app_nil_r.
    - assert (Hset : OrderedDict.set k v acc = (acc ++ [(k, v)])%list).
      { rewrite map_app in Hnd. apply NoDup_app in Hnd as (_ & Hd & _).
        assert (Hk : k ∉ map fst acc).
        { intros Hin. apply (Hd k Hin). left. }
        clear -Hk. induction acc as [|[k' v'] acc IH]; simpl; [done|].
        simpl in Hk. apply not_elem_of_cons in Hk as [Hne Hk].
        destruct (String.eqb k k') eqn:E.
        - apply String.eqb_eq in E. done.
        - by rewrite IH. }
      rewrite Hset, IH; rewrite <- app_assoc; done. }
  intros Hnd. by rewrite (G [] Hnd).
Qed.

End OrderedDictFacts.

(** ** Attribute filtering *)

Section AttributeFacts.

Variable layer : Module.

Lemma hasattr_getattr attr :
  hasattr layer attr = true ↔ is_Some (getattr layer attr).
Proof.
  unfold hasattr. destruct (getattr layer attr) as [v|].
  - split; [intros _; by exists v | done].
  - split; [done | by intros [? ?]].
Qed.

(** One turn of the loop of [_get_layer_attributes]. *)
Let turn (attrs : OrderedDict.t pyval) (attr : string) :=
  if hasattr layer attr then
    match getattr layer attr with
    | Some v => OrderedDict.set attr v attrs
    | None => attrs
    end
  else attrs.

Lemma attributes_loop_get keep acc k :
  OrderedDict.get k (fold_left turn keep acc) =
    if decide (k ∈ keep ∧ hasattr layer k = true) then getattr layer k
    else OrderedDict.get k acc.
Proof.
  revert acc. induction keep as [|a keep IH]; intros acc; cbn [fold_left].
  - rewrite decide_False; [done |]. intros [H%elem_of_nil _]. done.
  - rewrite IH. unfold turn.
    destruct (decide (k ∈ keep ∧ hasattr layer k = true)) as [[Hin Hk]|Hn].
    + rewrite decide_True; [done | split; [by right | done]].
    + destruct (decide (k = a)) as [->|Hne].
      * unfold hasattr in *. destruct (getattr layer a) as [v|] eqn:Hv.
        -- rewrite od_get_set_eq. rewrite decide_True; [done | split; [left | done]].
        -- rewrite decide_False; [done | by intros [_ ?]].
      * assert (Hacc : OrderedDict.get k
                  (if hasattr layer a
                   then match getattr layer a with
                        | Some v => OrderedDict.set a v acc
                        | None => acc
                        end
                   else acc) = OrderedDict.get k acc).
        { destruct (hasattr layer a); [|done].
          destruct (getattr layer a); [|done].
          by apply od_get_set_ne. }
        rewrite Hacc. rewrite decide_False; [done |].
        intros [[?|?]%elem_of_cons ?]; [done | by apply Hn].
Qed.

Lemma attributes_loop_keys keep acc :
  OrderedDict.keys (fold_left turn keep acc) =
    (OrderedDict.keys acc ++
     filter (fun a => a ∉ OrderedDict.keys acc)
            (distinct (filter (fun a => hasattr layer a) keep)))%list.
Proof.
  revert acc. induction keep as [|a keep IH]; intros acc; simpl.
  - by rewrite app_nil_r.
  - rewrite IH, filter_cons.
    destruct (hasattr layer a) eqn:Ha.
    + rewrite decide_True by done.
      assert (Hturn : ∃ v, turn acc a = OrderedDict.set a v acc).
      { unfold turn. rewrite Ha.
        apply hasattr_getattr in Ha as [v Hv]. rewrite Hv. by exists v. }
      destruct Hturn as [v ->]. simpl.
      rewrite od_keys_set, filter_cons.
      set (D := distinct (filter (fun a0 => hasattr layer a0) keep)).
      destruct (decide (a ∈ OrderedDict.keys acc)) as [Hin|Hin].
      * rewrite decide_False by (intros H; by apply H).
        f_equal. rewrite list_filter_filter. apply list_filter_iff.
        intros x. split; [| by intros [? ?]].
        intros Hx. split; [done |]. congruence.
      * rewrite decide_True by done.
        rewrite <- app_assoc. simpl. do 2 f_equal.
        rewrite list_filter_filter. apply list_filter_iff.
        intros x. rewrite not_elem_of_app, not_elem_of_cons.
        split; [intros (? & ? & _); done | intros [? ?]; repeat split; try done].
        apply not_elem_of_nil.
    + rewrite decide_False by (intros H; exact H).
      assert (Hturn : turn acc a = acc) by (unfold turn; by rewrite Ha).
      by rewrite Hturn.
Qed.

Lemma distinct_NoDup (names : list string) : NoDup (distinct names).
Proof.
  induction names as [|a names IH]; simpl; constructor.
  - rewrite list_elem_of_filter. tauto.
  - by apply NoDup_filter.
Qed.

Lemma distinct_elem (names : list string) x : x ∈ distinct names ↔ x ∈ names.
Proof.
  induction names as [|a names IH]; simpl; [done |].
  rewrite !elem_of_cons, list_elem_of_filter, IH.
  destruct (decide (x = a)); tauto.
Qed.

Lemma distinct_of_NoDup (names : list string) : NoDup names → distinct names = names.
Proof.
  induction 1 as [|a names Hnot Hnd IH]; simpl; [done |].
  rewrite IH. f_equal. clear IH Hnd.
  induction names as [|b names IH]; [done |].
  apply not_elem_of_cons in Hnot as [Hne Hnot].
  rewrite filter_cons_True by congruence. by rewrite IH.
Qed.

End AttributeFacts.

(** ** The walk *)

(** Induction over a module with the property known of its children. *)
Lemma Module_children_ind (P : Module → Prop) :
  (∀ m, Forall (fun nc => P (snd nc)) (named_children m) → P m) →
  ∀ m, P m.
Proof.
  intros step. fix IH 1. intros m. apply step.
  destruct m as [cn a ps cs]. simpl.
  induction cs as [|nc cs IHcs].
  - apply List.Forall_nil.
  - apply List.Forall_cons; [apply IH | apply IHcs].
Qed.

Section WalkFacts.

Variable keep : list string.

Lemma parse_info layer name parent_input :
  let node := _parse_layers keep layer name parent_input in
  layer_name node = name ∧
  layer_type node = class_name layer ∧
  parameters node = OrderedDict.of_items (named_parameters false layer) ∧
  attributes node = _get_layer_attributes keep layer ∧
  is_residual_block node = residual_marker layer.
Proof.
  destruct layer; simpl. destruct (residual_marker _); simpl; done.
Qed.

(** The loop over the children of a residual block, in closed form. *)
Lemma block_loop name parent_input cs st :
  fold_left
    (fun st nc =>
       match nc with
       | (child_name, child_module) =>
           if String.eqb child_name "adjust" then
             {| loop_adjust_layer :=
                  Some (_parse_layers keep child_module child_name parent_input);
                loop_main_branch := loop_main_branch st |}
           else
             {| loop_adjust_layer := loop_adjust_layer st;
                loop_main_branch :=
                  loop_main_branch st ++
                  [_parse_layers keep child_module child_name (Some name)] |}
       end) cs st =
    {| loop_adjust_layer :=
         match find_last "adjust" cs with
         | Some c => Some (_parse_layers keep c "adjust" parent_input)
         | None => loop_adjust_layer st
         end;
       loop_main_branch :=
         loop_main_branch st ++
         map (fun nc => _parse_layers keep (snd nc) (fst nc) (Some name))
             (main_branch_children cs) |}.
Proof.
  revert st. induction cs as [|[cn c] cs IH]; intros st.
  - simpl. rewrite app_nil_r. by destruct st.
  - cbn [fold_left find_last]. rewrite IH. unfold main_branch_children.
    destruct (String.eqb cn "adjust") eqn:E.
    + apply String.eqb_eq in E. subst cn.
      rewrite filter_cons_False by (intros H; by apply H).
      cbn [loop_adjust_layer loop_main_branch].
      by destruct (find_last "adjust" cs).
    + apply String.eqb_neq in E.
      rewrite filter_cons_True by done.
      cbn [loop_adjust_layer loop_main_branch map fst snd].
      rewrite <- app_assoc.
      by destruct (find_last "adjust" cs).
Qed.

Lemma parse_block layer name parent_input :
  residual_marker layer = true →
  _parse_layers keep layer name parent_input =
    {| layer_name := name;
       layer_type := class_name layer;
       parameters := OrderedDict.of_items (named_parameters false layer);
       attributes := _get_layer_attributes keep layer;
       is_residual_block := true;
       residual_connection :=
         Some {| input_source := or_block_input parent_input;
                 fusion_type := fusion_type_of layer;
                 adjust_layer :=
                   (fun c => _parse_layers keep c "adjust" parent_input) <$>
                   find_last "adjust" (named_children layer) |};
       children :=
         map (fun nc => _parse_layers keep (snd nc) (fst nc) (Some name))
             (main_branch_children (named_children layer)) |}.
Proof.
  intros H. destruct layer as [cn a ps cs]. cbn [_parse_layers].
  rewrite H. rewrite block_loop. cbn.
  by destruct (find_last "adjust" cs).
Qed.

Lemma parse_plain layer name parent_input :
  residual_marker layer = false →
  _parse_layers keep layer name parent_input =
    {| layer_name := name;
       layer_type := class_name layer;
       parameters := OrderedDict.of_items (named_parameters false layer);
       attributes := _get_layer_attributes keep layer;
       is_residual_block := false;
       residual_connection := None;
       children :=
         map (fun nc => _parse_layers keep (snd nc) (fst nc) (Some name))
             (named_children layer) |}.
Proof.
  intros H. destruct layer as [cn a ps cs]. cbn [_parse_layers].
  rewrite H. cbn. f_equal. apply map_ext. by intros [? ?].
Qed.

End WalkFacts.

(** ** Children of a block *)

Lemma find_last_elem name cs c :
  find_last name cs = Some c → (name, c) ∈ cs.
Proof.
  induction cs as [|[cn c'] cs IH]; simpl; [done |].
  destruct (find_last name cs) as [c0|].
  - intros [= ->]. right. by apply IH.
  - destruct (String.eqb cn name) eqn:E; [|done].
    apply String.eqb_eq in E. intros [= ->]. subst. left.
Qed.

Lemma find_last_None name cs :
  find_last name cs = None ↔ name ∉ map fst cs.
Proof.
  induction cs as [|[cn c'] cs IH]; simpl.
  - split; [intros _; apply not_elem_of_nil | done].
  - rewrite not_elem_of_cons. destruct (find_last name cs) as [c0|].
    + split; [done |]. intros [_ H]. by apply IH in H.
    + destruct (String.eqb cn name) eqn:E.
      * apply String.eqb_eq in E. split; [done | intros [H _]; congruence].
      * apply String.eqb_neq in E. split; [|done].
        intros _. split; [congruence | by apply IH].
Qed.

Lemma find_last_unique name cs c :
  NoDup (map fst cs) → (name, c) ∈ cs → find_last name cs = Some c.
Proof.
  induction cs as [|[cn c'] cs IH]; simpl; intros Hnd Hin.
  - by apply elem_of_nil in Hin.
  - apply NoDup_cons in Hnd as [Hnot Hnd].
    apply elem_of_cons in Hin as [[= <- <-]|Hin].
    + assert (Hn : find_last name cs = None) by by apply find_last_None.
      rewrite Hn. by rewrite String.eqb_refl.
    + by rewrite (IH Hnd Hin).
Qed.

Lemma main_branch_all cs :
  "adjust" ∉ map fst cs → main_branch_children cs = cs.
Proof.
  unfold main_branch_children. induction cs as [|[cn c] cs IH]; [done |].
  simpl. intros [Hne Hnot]%not_elem_of_cons.
  rewrite filter_cons_True by (simpl; congruence). by rewrite IH.
Qed.

Lemma main_branch_names cs nc :
  nc ∈ main_branch_children cs ↔ nc ∈ cs ∧ fst nc ≠ "adjust".
Proof. unfold main_branch_children. rewrite list_elem_of_filter. tauto. Qed.

(** ** Nodes and the modules they come from *)

Lemma submodules_child m nc x :
  nc ∈ named_children m → x ∈ submodules (snd nc) → x ∈ submodules m.
Proof.
  intros Hnc Hx. destruct m as [cn a ps cs]. simpl in *. right.
  apply list_elem_of_In, in_flat_map. exists nc.
  split; by apply list_elem_of_In.
Qed.

Lemma nodes_parse keep layer name parent_input n :
  n ∈ nodes (_parse_layers keep layer name parent_input) →
  ∃ m name' parent_input',
    m ∈ submodules layer ∧ n = _parse_layers keep m name' parent_input'.
Proof.
  revert name parent_input n.
  induction layer as [layer IH] using Module_children_ind.
  intros name parent_input n.
  assert (Hself : layer ∈ submodules layer) by (destruct layer; left).
  assert (Hkids : ∀ l ctx,
             (∀ nc, nc ∈ l → nc ∈ named_children layer) →
             n ∈ flat_map nodes
                   (map (fun nc => _parse_layers keep (snd nc) (fst nc) ctx) l) →
             ∃ m name' parent_input',
               m ∈ submodules layer ∧ n = _parse_layers keep m name' parent_input').
  { intros l ctx Hl Hn.
    apply list_elem_of_In, in_flat_map in Hn as (x & Hx & Hn).
    apply in_map_iff in Hx as (nc & <- & Hnc).
    apply list_elem_of_In in Hnc, Hn.
    rewrite Forall_forall in IH.
    destruct (IH nc (Hl nc Hnc) _ _ _ Hn) as (m & name' & pi' & Hm & ->).
    exists m, name', pi'. split; [|done].
    apply (submodules_child layer nc); [by apply Hl | done]. }
  destruct (residual_marker layer) eqn:Hr.
  - rewrite (parse_block keep layer name parent_input Hr).
    cbn [nodes residual_connection adjust_layer children].
    intros [->|Hn]%elem_of_cons.
    + exists layer, name, parent_input. split; [done |].
      by rewrite (parse_block keep layer name parent_input Hr).
    + apply elem_of_app in Hn as [Hn|Hn].
      * destruct (find_last "adjust" (named_children layer)) as [c|] eqn:Hc;
          simpl in Hn; [|by apply elem_of_nil in Hn].
        apply find_last_elem in Hc. rewrite Forall_forall in IH.
        destruct (IH _ Hc _ _ _ Hn) as (m & name' & pi' & Hm & ->).
        exists m, name', pi'. split; [|done].
        by apply (submodules_child layer ("adjust", c)).
      * apply (Hkids _ _ (fun nc H => proj1 (proj1 (main_branch_names _ nc) H)) Hn).
  - rewrite (parse_plain keep layer name parent_input Hr).
    cbn [nodes residual_connection adjust_layer children].
    intros [->|Hn]%elem_of_cons.
    + exists layer, name, parent_input. split; [done |].
      by rewrite (parse_plain keep layer name parent_input Hr).
    + simpl in Hn. apply (Hkids _ _ (fun nc H => H) Hn).
Qed.

Lemma parse_shape keep layer name parent_input :
  let node := _parse_layers keep layer name parent_input in
  (residual_shape node ↔ residual_marker layer = true) ∧
  (plain_shape node ↔ residual_marker layer = false).
Proof.
  unfold residual_shape, plain_shape.
  destruct (residual_marker layer) eqn:Hr; simpl.
  - rewrite (parse_block keep layer name parent_input Hr). simpl.
    split; split; try done. by intros [? _].
  - rewrite (parse_plain keep layer name parent_input Hr). simpl.
    split; split; try done. by intros [? _].
Qed.

(** ** Dictionaries built from items *)

Section OfItemsFacts.

Context {V : Type}.

Lemma od_fold_get (items : list (string * V)) acc k v :
  OrderedDict.get k
    (fold_left (fun d kv => OrderedDict.set (fst kv) (snd kv) d) items acc)
  = Some v →
  (k, v) ∈ items ∨ OrderedDict.get k acc = Some v.
Proof.
  revert acc. induction items as [|[k' v'] items IH]; intros acc; simpl.
  - by right.
  - intros [H|H]%IH; [left; by right |].
    destruct (decide (k' = k)) as [->|Hne].
    + rewrite od_get_set_eq in H. injection H as ->. left. left.
    + rewrite od_get_set_ne in H by done. by right.
Qed.

Lemma od_fold_keys (items : list (string * V)) acc k :
  k ∈ OrderedDict.keys
        (fold_left (fun d kv => OrderedDict.set (fst kv) (snd kv) d) items acc)
  ↔ k ∈ map fst items ∨ k ∈ OrderedDict.keys acc.
Proof.
  revert acc. induction items as [|[k' v'] items IH]; intros acc; simpl.
  - split; [by right | intros [H|H]; [by apply elem_of_nil in H | done]].
  - rewrite IH, od_keys_set, elem_of_cons.
    destruct (decide (k' ∈ OrderedDict.keys acc)) as [Hin|Hin].
    + split; [tauto |]. intros [[->|?]|?]; tauto.
    + rewrite elem_of_app, list_elem_of_singleton. tauto.
Qed.

Lemma od_of_items_get (items : list (string * V)) k v :
  OrderedDict.get k (OrderedDict.of_items items) = Some v → (k, v) ∈ items.
Proof. intros [H|H]%od_fold_get; done. Qed.

Lemma od_of_items_keys (items : list (string * V)) k :
  k ∈ OrderedDict.keys (OrderedDict.of_items items) ↔ k ∈ map fst items.
Proof.
  unfold OrderedDict.of_items. rewrite od_fold_keys. split; [|by left].
  intros [H|H]; [done | by apply elem_of_nil in H].
Qed.

End OfItemsFacts.

Lemma named_parameters_direct layer :
  named_parameters false layer = own_parameters layer.
Proof. destruct layer; simpl. by rewrite app_nil_r. Qed.

(** * The claims about the parser *)

(** C1, as the code has it. For a module whose residual marker is present
    and truthy, every main-branch child is parsed with the module's own name
    as parent context; the child named [adjust] that the loop meets last is
    parsed with the parent context the module itself was given, passed
    through unchanged, and not with the module's name; and
    [input_source] is the parent context the module was given, or
    ["block_input"] where that is falsy. *)
Theorem residual_block_contexts keep layer name parent_input :
  residual_marker layer = true →
  let node := _parse_layers keep layer name parent_input in
  children node =
    map (fun nc => _parse_layers keep (snd nc) (fst nc) (Some name))
        (main_branch_children (named_children layer)) ∧
  ∃ rc,
    residual_connection node = Some rc ∧
    adjust_layer rc =
      (fun c => _parse_layers keep c "adjust" parent_input) <$>
      find_last "adjust" (named_children layer) ∧
    input_source rc = or_block_input parent_input ∧
    (parent_input = None → input_source rc = "block_input") ∧
    (∀ s, parent_input = Some s → s ≠ "" → input_source rc = s).
Proof.
  intros Hr node. subst node.
  rewrite (parse_block keep layer name parent_input Hr). simpl.
  split; [done |]. eexists. split; [done |]. simpl.
  repeat split.
  - by intros ->.
  - intros s -> Hs. simpl. apply String.eqb_neq in Hs. by rewrite Hs.
Qed.

Lemma residual_block_contexts_witness :
  let node := _parse_layers Examples.keep Examples.BlockOfBlocks "layer1" (Some "root") in
  children node =
    map (fun nc => _parse_layers Examples.keep (snd nc) (fst nc) (Some "layer1"))
        (main_branch_children (named_children Examples.BlockOfBlocks)) ∧
  ∃ rc,
    residual_connection node = Some rc ∧
    adjust_layer rc =
      (fun c => _parse_layers Examples.keep c "adjust" (Some "root")) <$>
      find_last "adjust" (named_children Examples.BlockOfBlocks) ∧
    input_source rc = or_block_input (Some "root") ∧
    (Some "root" = None → input_source rc = "block_input") ∧
    (∀ s, Some "root" = Some s → s ≠ "" → input_source rc = s).
Proof.
  apply (residual_block_contexts Examples.keep Examples.BlockOfBlocks
           "layer1" (Some "root")).
  reflexivity.
Defined.

(** C1 as stated fails: at the root, a block's main-branch child and its
    adjust child are not parsed with one and the same parent context,
    whatever that context is. The main-branch child is given the block's
    name, the adjust child the block's own parent context. *)
Lemma adjust_context_differs :
  let block := Examples.BlockOfBlocks in
  let node := _parse_layers Examples.keep block "root" None in
  residual_marker block = true ∧
  ¬ ∃ ctx,
      children node =
        map (fun nc => _parse_layers Examples.keep (snd nc) (fst nc) ctx)
            (main_branch_children (named_children block)) ∧
      (adjust_layer <$> residual_connection node) =
        Some ((fun c => _parse_layers Examples.keep c "adjust" ctx) <$>
              find_last "adjust" (named_children block)).
Proof.
  split; [reflexivity |].
  intros (ctx & Hmain & Hadjust).
  vm_compute in Hmain, Hadjust.
  injection Hmain as Hmain. injection Hadjust as Hadjust.
  assert (H : "root" = "block_input")
    by (etransitivity; [exact Hmain | symmetry; exact Hadjust]).
  discriminate H.
Qed.

(** C2. For a module whose residual marker is present and truthy, with
    child names unique as the framework keeps them: the node is a residual
    block; its children are the parsed children other than [adjust], in
    declared order, and none of them is named [adjust]; the child named
    [adjust] is parsed into [adjust_layer]; without such a child
    [adjust_layer] is null and the children are all of the module's
    children; and without main-branch children the children list is
    empty. *)
Theorem residual_block_partition keep layer name parent_input :
  residual_marker layer = true →
  unique_child_names layer →
  let node := _parse_layers keep layer name parent_input in
  let parsed := fun nc => _parse_layers keep (snd nc) (fst nc) (Some name) in
  is_residual_block node = true ∧
  children node = map parsed (main_branch_children (named_children layer)) ∧
  (∀ n, n ∈ children node → layer_name n ≠ "adjust") ∧
  (∀ c, ("adjust", c) ∈ named_children layer →
        (adjust_layer <$> residual_connection node) =
          Some (Some (_parse_layers keep c "adjust" parent_input))) ∧
  ("adjust" ∉ map fst (named_children layer) →
        (adjust_layer <$> residual_connection node) = Some None ∧
        children node = map parsed (named_children layer)) ∧
  (main_branch_children (named_children layer) = [] → children node = []).
Proof.
  intros Hr Hnd node parsed. subst node parsed.
  rewrite (parse_block keep layer name parent_input Hr). simpl.
  split; [done |]. split; [done |]. split; [|split; [|split]].
  - intros n Hn. apply list_elem_of_In, in_map_iff in Hn as (nc & <- & Hnc).
    apply list_elem_of_In, main_branch_names in Hnc as [_ Hne].
    by rewrite (proj1 (parse_info keep _ _ _)).
  - intros c Hc. by rewrite (find_last_unique _ _ _ Hnd Hc).
  - intros Hno. rewrite (proj2 (find_last_None _ _) Hno).
    by rewrite (main_branch_all _ Hno).
  - by intros ->.
Qed.

Lemma residual_block_partition_witness :
  let layer := Examples.ResidualBlock true in
  let node := _parse_layers Examples.keep layer "block" (Some "root") in
  let parsed := fun nc => _parse_layers Examples.keep (snd nc) (fst nc) (Some "block") in
  is_residual_block node = true ∧
  children node = map parsed (main_branch_children (named_children layer)) ∧
  (∀ n, n ∈ children node → layer_name n ≠ "adjust") ∧
  (∀ c, ("adjust", c) ∈ named_children layer →
        (adjust_layer <$> residual_connection node) =
          Some (Some (_parse_layers Examples.keep c "adjust" (Some "root")))) ∧
  ("adjust" ∉ map fst (named_children layer) →
        (adjust_layer <$> residual_connection node) = Some None ∧
        children node = map parsed (named_children layer)) ∧
  (main_branch_children (named_children layer) = [] → children node = []).
Proof.
  apply (residual_block_partition Examples.keep (Examples.ResidualBlock true)
           "block" (Some "root")).
  - reflexivity.
  - apply (bool_decide_unpack _). vm_compute. exact I.
Defined.

(** C3. Every node of the tree a parse returns, those under an adjust layer
    included, has exactly one of the two shapes, and comes from a module of
    the walk: it has the residual shape iff that module's residual marker is
    present and truthy, and the plain shape iff it is not. *)
Theorem residual_shape_invariant keep layer name parent_input n :
  n ∈ nodes (_parse_layers keep layer name parent_input) →
  (plain_shape n ∨ residual_shape n) ∧
  ¬ (plain_shape n ∧ residual_shape n) ∧
  ∃ m name' parent_input',
    m ∈ submodules layer ∧
    n = _parse_layers keep m name' parent_input' ∧
    (residual_shape n ↔ residual_marker m = true) ∧
    (plain_shape n ↔ residual_marker m = false).
Proof.
  intros (m & name' & pi' & Hm & ->)%nodes_parse.
  pose proof (parse_shape keep m name' pi') as [Hres Hplain].
  split; [|split].
  - destruct (residual_marker m); [right; by apply Hres | left; by apply Hplain].
  - intros [[H1 _] [H2 _]]. congruence.
  - by exists m, name', pi'.
Qed.

Lemma residual_shape_invariant_witness :
  let tree := _parse_layers Examples.keep Examples.BlockOfBlocks "root" None in
  let n := _parse_layers Examples.keep (Examples.ResidualBlock false) "adjust" None in
  (plain_shape n ∨ residual_shape n) ∧
  ¬ (plain_shape n ∧ residual_shape n) ∧
  ∃ m name' parent_input',
    m ∈ submodules Examples.BlockOfBlocks ∧
    n = _parse_layers Examples.keep m name' parent_input' ∧
    (residual_shape n ↔ residual_marker m = true) ∧
    (plain_shape n ↔ residual_marker m = false).
Proof.
  apply (residual_shape_invariant Examples.keep Examples.BlockOfBlocks "root" None).
  vm_compute. apply list_elem_of_further, list_elem_of_here.
Defined.

(** C4. The attributes of a node hold exactly the allow-listed names that
    are present on the instance, each with the value the instance has for
    it; a name that is absent from the instance is no key; and the keys
    stand in the order of the allow-list, a repeated name at its first
    place. *)
Theorem attributes_filtered keep layer name parent_input :
  let attrs := attributes (_parse_layers keep layer name parent_input) in
  (∀ k v, OrderedDict.get k attrs = Some v ↔
            k ∈ keep ∧ getattr layer k = Some v) ∧
  (∀ k, k ∈ OrderedDict.keys attrs ↔ k ∈ keep ∧ hasattr layer k = true) ∧
  (∀ k, hasattr layer k = false → OrderedDict.get k attrs = None) ∧
  OrderedDict.keys attrs = distinct (filter (fun a => hasattr layer a) keep) ∧
  NoDup (OrderedDict.keys attrs).
Proof.
  intros attrs. subst attrs.
  destruct (parse_info keep layer name parent_input) as (_ & _ & _ & -> & _).
  unfold _get_layer_attributes.
  assert (Hget : ∀ k v,
             OrderedDict.get k
               (fold_left
                  (fun attrs attr =>
                     if hasattr layer attr then
                       match getattr layer attr with
                       | Some v => OrderedDict.set attr v attrs
                       | None => attrs
                       end
                     else attrs) keep []) = Some v ↔
             k ∈ keep ∧ getattr layer k = Some v).
  { intros k v. rewrite attributes_loop_get.
    destruct (decide (k ∈ keep ∧ hasattr layer k = true)) as [[Hin Hk]|Hn].
    - tauto.
    - simpl. split; [done |]. intros [Hin Hv]. exfalso. apply Hn. split; [done |].
      apply hasattr_getattr. by exists v. }
  assert (Hkeys :
            OrderedDict.keys
               (fold_left
                  (fun attrs attr =>
                     if hasattr layer attr then
                       match getattr layer attr with
                       | Some v => OrderedDict.set attr v attrs
                       | None => attrs
                       end
                     else attrs) keep []) =
            distinct (filter (fun a => hasattr layer a) keep)).
  { rewrite attributes_loop_keys. simpl.
    set (D := distinct _). clearbody D.
    induction D as [|x D IH]; [done |].
    rewrite filter_cons_True by apply not_elem_of_nil. by rewrite IH. }
  split; [exact Hget |]. split; [|split; [|split]].
  - intros k. rewrite Hkeys, distinct_elem, list_elem_of_filter.
    destruct (hasattr layer k); simpl; split; try tauto. by intros [_ ?].
  - intros k Hk. destruct (OrderedDict.get k _) as [v|] eqn:E; [|done].
    apply Hget in E as [_ E]. unfold hasattr in Hk. by rewrite E in Hk.
  - exact Hkeys.
  - rewrite Hkeys. apply distinct_NoDup.
Qed.

(** C5. With an allow-list of names, [parse(model)] returns the node of the
    walk from the module under the name ["root"]; and for every module
    without a truthy residual marker the children of its node are the parsed
    children of the module, as many and in declared order, each under its
    declared name. *)
Theorem parse_root_and_children self names model :
  ModelParser.keep_names (ModelParser.attributes_keep self) = Ok names →
  (∃ root,
      ModelParser.__call__ self (ObjModule model) = Ok root ∧
      root = _parse_layers names model "root" None ∧
      layer_name root = "root") ∧
  ∀ layer name parent_input,
    residual_marker layer = false →
    let node := _parse_layers names layer name parent_input in
    length (children node) = length (named_children layer) ∧
    map layer_name (children node) = map fst (named_children layer) ∧
    ∀ i nc,
      named_children layer !! i = Some nc →
      ∃ child,
        children node !! i = Some child ∧
        child = _parse_layers names (snd nc) (fst nc) (Some name) ∧
        layer_name child = fst nc.
Proof.
  intros Hkeep. split.
  - exists (_parse_layers names model "root" None).
    unfold ModelParser.__call__. rewrite Hkeep. simpl.
    split; [done |]. split; [done |]. apply parse_info.
  - intros layer name parent_input Hr node. subst node.
    rewrite (parse_plain names layer name parent_input Hr). simpl.
    split; [by rewrite length_map |]. split.
    + rewrite map_map. apply map_ext. intros nc. apply parse_info.
    + intros i nc Hi. eexists. split; [|split; [reflexivity |]].
      * change (map ?f ?l) with (f <$> l). by rewrite list_lookup_fmap, Hi.
      * apply parse_info.
Qed.

Lemma parse_root_and_children_witness :
  let self := ModelParser.mk (TArray [TStr "in_features"; TStr "out_features"]) in
  let names := ["in_features"; "out_features"] in
  (∃ root,
      ModelParser.__call__ self (ObjModule Examples.SimpleLayer) = Ok root ∧
      root = _parse_layers names Examples.SimpleLayer "root" None ∧
      layer_name root = "root") ∧
  ∀ layer name parent_input,
    residual_marker layer = false →
    let node := _parse_layers names layer name parent_input in
    length (children node) = length (named_children layer) ∧
    map layer_name (children node) = map fst (named_children layer) ∧
    ∀ i nc,
      named_children layer !! i = Some nc →
      ∃ child,
        children node !! i = Some child ∧
        child = _parse_layers names (snd nc) (fst nc) (Some name) ∧
        layer_name child = fst nc.
Proof.
  apply (parse_root_and_children
           (ModelParser.mk (TArray [TStr "in_features"; TStr "out_features"]))
           ["in_features"; "out_features"] Examples.SimpleLayer).
  reflexivity.
Defined.

(** C9. The parameters of a node are the direct parameters of its module,
    each name with its shape; this holds of every node of the tree, so a
    name is a key of a node only where it is a direct parameter of that
    node's own module, whatever the module's descendants hold. *)
Theorem parameters_are_direct keep layer name parent_input n :
  n ∈ nodes (_parse_layers keep layer name parent_input) →
  ∃ m name' parent_input',
    m ∈ submodules layer ∧
    n = _parse_layers keep m name' parent_input' ∧
    parameters n = OrderedDict.of_items (named_parameters false m) ∧
    named_parameters false m = own_parameters m ∧
    (∀ k, k ∈ OrderedDict.keys (parameters n) ↔ k ∈ map fst (own_parameters m)) ∧
    (∀ k shape, OrderedDict.get k (parameters n) = Some shape →
                (k, shape) ∈ own_parameters m) ∧
    (unique_parameter_names m → parameters n = own_parameters m).
Proof.
  intros (m & name' & pi' & Hm & ->)%nodes_parse.
  exists m, name', pi'. split; [done |]. split; [done |].
  destruct (parse_info keep m name' pi') as (_ & _ & -> & _).
  rewrite named_parameters_direct.
  split; [done |]. split; [done |]. split; [|split].
  - intros k. apply od_of_items_keys.
  - intros k shape. apply od_of_items_get.
  - apply od_of_items_NoDup.
Qed.

Lemma parameters_are_direct_witness :
  let tree := _parse_layers Examples.keep Examples.SimpleLayer "root" None in
  ∃ m name' parent_input',
    m ∈ submodules Examples.SimpleLayer ∧
    tree = _parse_layers Examples.keep m name' parent_input' ∧
    parameters tree = OrderedDict.of_items (named_parameters false m) ∧
    named_parameters false m = own_parameters m ∧
    (∀ k, k ∈ OrderedDict.keys (parameters tree) ↔ k ∈ map fst (own_parameters m)) ∧
    (∀ k shape, OrderedDict.get k (parameters tree) = Some shape →
                (k, shape) ∈ own_parameters m) ∧
    (unique_parameter_names m → parameters tree = own_parameters m).
Proof.
  apply (parameters_are_direct Examples.keep Examples.SimpleLayer "root" None).
  vm_compute. apply list_elem_of_here.
Defined.

(** The layer of the tests: the weights of its [fc] child are on the child's
    node, under their local names, and not on the node of the layer, where
    a recursive listing would put them as [fc.weight] and [fc.bias]. *)
Example parameters_stay_on_their_node :
  let node := _parse_layers Examples.keep Examples.SimpleLayer "test_layer" None in
  parameters node = [] ∧
  map parameters (children node) = [[("weight", [20; 10]%Z); ("bias", [20]%Z)]] ∧
  named_parameters true Examples.SimpleLayer =
    [("fc.weight", [20; 10]%Z); ("fc.bias", [20]%Z)].
Proof. repeat split. Qed.

(** C10. A falsy parent context gives the default as an absent one does: a
    module whose residual marker is present and truthy, parsed with the
    empty string as parent context, has ["block_input"] as its
    [input_source]. *)
Theorem empty_parent_input_defaults keep layer name :
  residual_marker layer = true →
  ∃ rc,
    residual_connection (_parse_layers keep layer name (Some "")) = Some rc ∧
    input_source rc = "block_input" ∧
    input_source rc ≠ "".
Proof.
  intros Hr. rewrite (parse_block keep layer name (Some "") Hr). simpl.
  eexists. split; [done |]. simpl. split; done.
Qed.

Lemma empty_parent_input_defaults_witness :
  ∃ rc,
    residual_connection
      (_parse_layers Examples.keep (Examples.ResidualBlock false) "block" (Some ""))
    = Some rc ∧
    input_source rc = "block_input" ∧
    input_source rc ≠ "".
Proof.
  apply (empty_parent_input_defaults Examples.keep (Examples.ResidualBlock false) "block").
  reflexivity.
Defined.

(** * The claims about errors *)

Lemma issubclass_spec classes cls :
  Decorator.issubclass classes cls nn_Module = Ok true ↔
  subclass_of classes cls nn_Module.
Proof.
  unfold Decorator.issubclass, subclass_of.
  destruct (classes !! cls) as [c|]; split.
  - intros [= H]. exists c. split; [done |].
    apply existsb_exists in H as (x & Hx & Heq).
    apply (Nat.eqb_eq nn_Module x) in Heq. subst x.
    by apply list_elem_of_In.
  - intros (c' & [= <-] & Hin). f_equal.
    apply existsb_exists. exists nn_Module.
    split; [by apply list_elem_of_In | apply Nat.eqb_refl].
  - done.
  - by intros (c' & ? & _).
Qed.

(** C7. The decorator applied to a class that is no subclass of the module
    base type raises a type error and returns no class, whatever instances
    are made later; the parser called on an object that is no module raises
    a type error, whatever the parser holds; and neither ever returns for
    such an input. *)
Theorem type_mismatch_raised fusion_type classes cls self v :
  ¬ subclass_of classes cls nn_Module →
  (∃ msg, Decorator.residual_block fusion_type classes cls = Raise (TypeError msg)) ∧
  (∃ msg, ModelParser.__call__ self (ObjOther v) = Raise (TypeError msg)) ∧
  is_ok (Decorator.residual_block fusion_type classes cls) = false ∧
  is_ok (ModelParser.__call__ self (ObjOther v)) = false.
Proof.
  intros Hsub.
  assert (H : ∃ msg, Decorator.residual_block fusion_type classes cls
                     = Raise (TypeError msg)).
  { unfold Decorator.residual_block, Decorator.decorator.
    destruct (Decorator.issubclass classes cls nn_Module) as [[|]|e] eqn:E; simpl.
    - exfalso. apply Hsub. by apply issubclass_spec.
    - by eexists.
    - unfold Decorator.issubclass in E.
      destruct (classes !! cls); [done |]. injection E as <-. by eexists. }
  split; [exact H |]. split; [by eexists |].
  destruct H as [msg ->]. done.
Qed.

Lemma type_mismatch_raised_witness :
  (∃ msg, Decorator.residual_block (PyStr "add") Examples.classes Examples.E
          = Raise (TypeError msg)) ∧
  (∃ msg, ModelParser.__call__ (ModelParser.mk (TArray [])) (ObjOther (PyInt 3))
          = Raise (TypeError msg)) ∧
  is_ok (Decorator.residual_block (PyStr "add") Examples.classes Examples.E) = false ∧
  is_ok (ModelParser.__call__ (ModelParser.mk (TArray [])) (ObjOther (PyInt 3))) = false.
Proof.
  apply (type_mismatch_raised (PyStr "add") Examples.classes Examples.E
           (ModelParser.mk (TArray [])) (PyInt 3)).
  intros (c & Hc & Hin). vm_compute in Hc. injection Hc as <-.
  apply list_elem_of_In in Hin. simpl in Hin. destruct Hin as [H|[]].
  discriminate H.
Defined.

Lemma subscript_keep_field entries :
  match keep_field entries with
  | Some keep =>
      bind (subscript (TTable entries) "attributes")
           (fun attributes => subscript attributes "keep") = Ok keep
  | None =>
      ∃ e, bind (subscript (TTable entries) "attributes")
                (fun attributes => subscript attributes "keep") = Raise e
  end.
Proof.
  unfold keep_field. simpl.
  destruct (OrderedDict.get "attributes" entries) as [[s|z|b|r|items|table]|];
    simpl; try by eexists.
  destruct (OrderedDict.get "keep" table); simpl; [done | by eexists].
Qed.

(** C8. Building a parser raises, and gives no parser, exactly when the
    configuration file is missing, cannot be read, does not parse, or lacks
    the [keep] field of its [attributes] table; it raises in the constructor,
    which takes no model. Where it returns, the parser holds the value of
    that field and nothing else. *)
Theorem config_error_at_construction tomllib_load fs config_path :
  (config_unusable tomllib_load fs config_path ↔
   ∃ e, ModelParser.__init__ tomllib_load fs config_path = Raise e) ∧
  (∀ self,
      ModelParser.__init__ tomllib_load fs config_path = Ok self ↔
      ∃ content entries keep,
        fs !! config_path = Some (Readable content) ∧
        tomllib_load content = Some entries ∧
        keep_field entries = Some keep ∧
        self = ModelParser.mk keep).
Proof.
  assert (Hinit : ∀ content entries,
             fs !! config_path = Some (Readable content) →
             tomllib_load content = Some entries →
             ModelParser.__init__ tomllib_load fs config_path =
               bind (bind (subscript (TTable entries) "attributes")
                          (fun attributes => subscript attributes "keep"))
                    (fun keep => Ok (ModelParser.mk keep))).
  { intros content entries Hf Hl.
    unfold ModelParser.__init__, open_rb. rewrite Hf. simpl. rewrite Hl. simpl.
    by destruct (OrderedDict.get "attributes" entries). }
  unfold config_unusable.
  destruct (fs !! config_path) as [[|content]|] eqn:Hf.
  - assert (Hr : ∃ e, ModelParser.__init__ tomllib_load fs config_path = Raise e)
      by (unfold ModelParser.__init__, open_rb; rewrite Hf; by eexists).
    split; [done |]. destruct Hr as [e ->].
    intros self. split; [done | by intros (? & ? & ? & ? & _)].
  - destruct (tomllib_load content) as [entries|] eqn:Hl.
    + rewrite (Hinit content entries eq_refl Hl).
      pose proof (subscript_keep_field entries) as Hk.
      destruct (keep_field entries) as [keep|] eqn:Hkf.
      * rewrite Hk. simpl. split.
        -- split; [done | by intros [? ?]].
        -- intros self. split.
           ++ intros [= <-]. by exists content, entries, keep.
           ++ intros (? & ? & ? & ? & ? & ? & ->). by simplify_eq.
      * destruct Hk as [e ->]. simpl. split.
        -- split; [by eexists | done].
        -- intros self. split; [done |].
           intros (? & ? & ? & ? & ? & ? & _). by simplify_eq.
    + assert (Hr : ∃ e, ModelParser.__init__ tomllib_load fs config_path = Raise e)
        by (unfold ModelParser.__init__, open_rb; rewrite Hf; simpl;
            rewrite Hl; by eexists).
      split; [done |]. destruct Hr as [e ->].
      intros self. split; [done |].
      intros (? & ? & ? & ? & ? & _). by simplify_eq.
  - assert (Hr : ∃ e, ModelParser.__init__ tomllib_load fs config_path = Raise e)
      by (unfold ModelParser.__init__, open_rb; rewrite Hf; by eexists).
    split; [done |]. destruct Hr as [e ->].
    intros self. split; [done | by intros (? & ? & ? & ? & _)].
Qed.

Lemma config_error_at_construction_witness :
  (∃ e, ModelParser.__init__ Examples.load Examples.files "config/missing.toml" = Raise e) ∧
  (∃ e, ModelParser.__init__ Examples.load Examples.files "config/secret.toml" = Raise e) ∧
  (∃ e, ModelParser.__init__ Examples.load Examples.files "config/broken.toml" = Raise e) ∧
  ModelParser.__init__ Examples.load Examples.files "config/model_parse.toml" =
    Ok (ModelParser.mk (TArray [TStr "in_features"; TStr "out_features"])).
Proof.
  split; [|split; [|split]].
  - apply (proj1 (config_error_at_construction
                    Examples.load Examples.files "config/missing.toml")).
    vm_compute. exact I.
  - apply (proj1 (config_error_at_construction
                    Examples.load Examples.files "config/secret.toml")).
    vm_compute. exact I.
  - apply (proj1 (config_error_at_construction
                    Examples.load Examples.files "config/broken.toml")).
    vm_compute. exact I.
  - apply (proj2 (config_error_at_construction
                    Examples.load Examples.files "config/model_parse.toml")).
    exists Examples.config_text, Examples.config,
           (TArray [TStr "in_features"; TStr "out_features"]).
    split; [reflexivity |]. split; [reflexivity |]. split; reflexivity.
Defined.

(** * The claims about the decorator *)

(** ** What [decorator] changes *)

Lemma decorator_returns fusion_type classes cls ret classes' :
  Decorator.residual_block fusion_type classes cls = Ok (ret, classes') →
  ∃ c, classes !! cls = Some c ∧ nn_Module ∈ mro c ∧ ret = cls ∧
       classes' =
         <[cls := {| mro := mro c;
                     own_init :=
                       Some (NewInit (lookup_init classes (mro c)) fusion_type) |}]>
           classes.
Proof.
  unfold Decorator.residual_block, Decorator.decorator.
  destruct (Decorator.issubclass classes cls nn_Module) as [[|]|e] eqn:E;
    simpl; [|done|done].
  apply issubclass_spec in E as (c & Hc & Hin).
  unfold set_init, class_init. rewrite Hc.
  intros [= <- <-]. by exists c.
Qed.

(** ** Looking up constructors *)

Lemma lookup_init_inherited classes order cls c f :
  inherits_init classes order cls →
  classes !! cls = Some c → own_init c = Some f →
  lookup_init classes order = f.
Proof.
  intros (before & rest & -> & Hbefore) Hc Hf.
  induction Hbefore as [|b before [_ Hb] _ IH]; simpl.
  - rewrite Hc. destruct c as [m o]. simpl in Hf. by rewrite Hf.
  - destruct (classes !! b) as [[m [g|]]|]; done.
Qed.

Lemma lookup_init_unchanged classes cls newc order :
  cls ∉ order →
  lookup_init (<[cls := newc]> classes) order = lookup_init classes order.
Proof.
  induction order as [|b order IH]; [done |].
  intros [Hne Hnot]%not_elem_of_cons. simpl.
  rewrite lookup_insert_ne by done. by rewrite IH.
Qed.

Lemma after_elem owner order tail x :
  after owner order = Some tail → x ∈ tail → x ∈ order.
Proof.
  revert tail. induction order as [|b order IH]; intros tail; simpl; [done |].
  destruct (Nat.eqb b owner).
  - intros [= ->] Hx. by right.
  - intros Hafter Hx. right. by apply (IH tail).
Qed.

Lemma after_head_unique owner cls rest tail :
  cls ∉ rest → after owner (cls :: rest) = Some tail → cls ∉ tail.
Proof.
  intros Hnot. simpl. destruct (Nat.eqb cls owner).
  - by intros [= <-].
  - intros Hafter Hin. apply Hnot. by apply (after_elem owner rest tail).
Qed.

(** ** Running constructors *)

Lemma exec_ext super1 super2 stmts self :
  (∀ args self', super1 args self' = super2 args self') →
  exec super1 stmts self = exec super2 stmts self.
Proof.
  intros Hext. revert self.
  induction stmts as [|[name value|args|e] stmts IH]; intros self; simpl.
  - done.
  - apply IH.
  - rewrite Hext. destruct (super2 args self) as [[self'|e]|]; [apply IH | done | done].
  - done.
Qed.

(** Replacing the constructor of the class at the head of an MRO does not
    change what any function does on an instance of that class beneath its
    own call: [super()] only looks behind the head. *)
Lemma call_init_unchanged classes cls newc rest depth f args self :
  cls ∉ rest →
  call_init depth (<[cls := newc]> classes) (cls :: rest) f args self =
  call_init depth classes (cls :: rest) f args self.
Proof.
  intros Hnot. revert f args self.
  induction depth as [|depth IH]; intros f args self; [done |].
  destruct f as [|owner body|original_init fusion_type]; simpl.
  - done.
  - apply exec_ext. intros args' self'.
    destruct (Nat.eqb cls owner) eqn:E.
    + rewrite lookup_init_unchanged by done. apply IH.
    + destruct (after owner rest) as [tail|] eqn:Hafter; [|done].
      rewrite lookup_init_unchanged; [apply IH |].
      intros Hin. apply Hnot. by apply (after_elem owner rest tail).
  - unfold Decorator.new_init. by rewrite IH.
Qed.

Lemma call_new_init depth classes order original_init fusion_type args self :
  call_init (S depth) classes order (NewInit original_init fusion_type) args self =
  stamped fusion_type (call_init depth classes order original_init args self).
Proof.
  simpl. unfold Decorator.new_init, stamped, setattr.
  destruct (call_init depth classes order original_init args self) as [[self'|e]|];
    [|done|done].
  by rewrite <- app_assoc.
Qed.

(** ** The fields of a stamped instance *)

Lemma instance_dict_setattr self name value :
  instance_dict (setattr self name value) =
  OrderedDict.set name value (instance_dict self).
Proof.
  unfold instance_dict, OrderedDict.of_items, setattr.
  by rewrite fold_left_app.
Qed.

Lemma stamped_fields fusion_type self :
  let self' := (self ++ [("residual", PyBool true);
                         ("fusion_type", fusion_type)])%list in
  OrderedDict.get "residual" (instance_dict self') = Some (PyBool true) ∧
  OrderedDict.get "fusion_type" (instance_dict self') = Some fusion_type.
Proof.
  simpl.
  change (self ++ [("residual", PyBool true); ("fusion_type", fusion_type)])%list
    with (self ++ [("residual", PyBool true)] ++ [("fusion_type", fusion_type)])%list.
  rewrite app_assoc.
  change ((self ++ [("residual", PyBool true)]) ++ [("fusion_type", fusion_type)])%list
    with (setattr (setattr self "residual" (PyBool true)) "fusion_type" fusion_type).
  rewrite !instance_dict_setattr. split.
  - rewrite od_get_set_ne by done. apply od_get_set_eq.
  - apply od_get_set_eq.
Qed.

(** C6, as the code has it. Where the decorator returns, it returns the
    class it was given, and of the classes only the [__init__] of that class
    has changed. Every call of the new [__init__] runs the constructor the
    class had and then, unless that raised, makes exactly the two
    assignments [residual = True] and [fusion_type = L], once. So an
    instance of the class, or of a subclass that takes [__init__] from it,
    is constructed as before and then carries the two fields. A subclass
    with a constructor of its own gets them once per call it makes to the
    constructor of the class. *)
Theorem tagger_stamps fusion_type classes cls ret classes' :
  Decorator.residual_block fusion_type classes cls = Ok (ret, classes') →
  ret = cls ∧
  (∀ other, other ≠ cls → classes' !! other = classes !! other) ∧
  ∃ c original_init,
    classes !! cls = Some c ∧
    original_init = lookup_init classes (mro c) ∧
    classes' !! cls =
      Some {| mro := mro c;
              own_init := Some (NewInit original_init fusion_type) |} ∧
    (∀ order depth args self,
        call_init (S depth) classes' order
                  (NewInit original_init fusion_type) args self =
        stamped fusion_type
                (call_init depth classes' order original_init args self)) ∧
    (∀ sub csub depth args,
        classes' !! sub = Some csub →
        inherits_init classes' (mro csub) cls →
        instantiate (S depth) classes' sub args =
        stamped fusion_type
                (call_init depth classes' (mro csub) original_init args [])) ∧
    (∀ rest depth args,
        mro c = cls :: rest → cls ∉ rest →
        instantiate (S depth) classes' cls args =
        stamped fusion_type (instantiate depth classes cls args)) ∧
    (∀ self,
        let self' := (self ++ [("residual", PyBool true);
                               ("fusion_type", fusion_type)])%list in
        OrderedDict.get "residual" (instance_dict self') = Some (PyBool true) ∧
        OrderedDict.get "fusion_type" (instance_dict self') = Some fusion_type).
Proof.
  intros (c & Hc & _ & -> & ->)%decorator_returns.
  split; [done |]. split.
  { intros other Hne. by rewrite lookup_insert_ne. }
  exists c, (lookup_init classes (mro c)).
  split; [done |]. split; [done |].
  split; [by rewrite lookup_insert_eq |].
  split; [intros; apply call_new_init |].
  split; [|split].
  - intros sub csub depth args Hsub Hinh.
    unfold instantiate, class_init. rewrite Hsub.
    rewrite (lookup_init_inherited _ _ cls _ _ Hinh (lookup_insert_eq _ _ _) eq_refl).
    apply call_new_init.
  - intros rest depth args Hmro Hnot.
    unfold instantiate, class_init. rewrite lookup_insert_eq, Hc. cbn [mro].
    rewrite Hmro.
    assert (Hl : lookup_init
                   (<[cls := {| mro := cls :: rest;
                                own_init := Some (NewInit (lookup_init classes (cls :: rest))
                                                          fusion_type) |}]> classes)
                   (cls :: rest)
                 = NewInit (lookup_init classes (cls :: rest)) fusion_type).
    { simpl. by rewrite lookup_insert_eq. }
    rewrite Hl, call_new_init. f_equal.
    by apply call_init_unchanged.
  - intros self. apply stamped_fields.
Qed.

Lemma tagger_stamps_witness :
  let classes' :=
    <[Examples.A :=
        {| mro := [Examples.A; nn_Module];
           own_init :=
             Some (NewInit (Def Examples.A
                              (fun args => [SuperInit []; SetAttr "width" (PyTuple args)]))
                           (PyStr "concat")) |}]> Examples.classes in
  instantiate 3 classes' Examples.A [PyInt 64] =
    Some (Ok [("training", PyBool true); ("width", PyTuple [PyInt 64]);
              ("residual", PyBool true); ("fusion_type", PyStr "concat")]) ∧
  instantiate 3 classes' Examples.B [PyInt 64] =
    Some (Ok [("training", PyBool true); ("width", PyTuple [PyInt 64]);
              ("residual", PyBool true); ("fusion_type", PyStr "concat")]).
Proof.
  intros classes'.
  destruct (tagger_stamps (PyStr "concat") Examples.classes Examples.A
                          Examples.A classes' eq_refl)
    as (_ & _ & c & original_init & Hc & -> & _ & _ & Hsub & Hdirect & _).
  injection Hc as <-. split.
  - rewrite (Hdirect [nn_Module] 2%nat [PyInt 64] eq_refl).
    + reflexivity.
    + intros Hin. apply list_elem_of_In in Hin. simpl in Hin.
      destruct Hin as [H|[]]. discriminate H.
  - rewrite (Hsub Examples.B {| mro := [Examples.B; Examples.A; nn_Module];
                                own_init := None |} 2%nat [PyInt 64] eq_refl).
    + reflexivity.
    + exists [Examples.B], [nn_Module]. split; [reflexivity |].
      apply Forall_cons. split; [|apply Forall_nil; exact I].
      split; [discriminate | exact I].
Defined.

(** C6 as stated fails for instantiation through subclassing: a subclass of
    the decorated class whose own constructor does not call the one of the
    class is instantiated with neither field set. *)
Lemma subclass_without_chaining_unstamped :
  ∃ classes' self,
    Decorator.residual_block (PyStr "add") Examples.classes Examples.A
      = Ok (Examples.A, classes') ∧
    subclass_of classes' Examples.C Examples.A ∧
    instantiate 3 classes' Examples.C [] = Some (Ok self) ∧
    self = [("depth", PyInt 2)] ∧
    OrderedDict.get "residual" (instance_dict self) = None ∧
    OrderedDict.get "fusion_type" (instance_dict self) = None.
Proof.
  eexists. eexists. split; [reflexivity |]. split.
  - eexists. split; [reflexivity |].
    simpl. apply list_elem_of_further, list_elem_of_here.
  - split; [reflexivity |]. split; [reflexivity |]. split; reflexivity.
Qed.

(** A subclass whose constructor calls the one of the decorated class is
    stamped by that call, before the rest of its own constructor runs. *)
Example chaining_subclass_stamped_once :
  ∃ classes',
    Decorator.residual_block (PyStr "add") Examples.classes Examples.A
      = Ok (Examples.A, classes') ∧
    instantiate 4 classes' Examples.D [PyInt 8] =
      Some (Ok [("training", PyBool true); ("width", PyTuple [PyInt 8]);
                ("residual", PyBool true); ("fusion_type", PyStr "add");
                ("depth", PyInt 3)]).
Proof. eexists. split; reflexivity. Qed.

(** * The scenarios of the test suite *)

Example test_parse_simple_layer :
  let result := _parse_layers Examples.keep Examples.SimpleLayer "test_layer" None in
  layer_name result = "test_layer" ∧
  layer_type result = "SimpleLayer" ∧
  is_residual_block result = false ∧
  residual_connection result = None ∧
  attributes result = [("in_features", PyInt 10); ("out_features", PyInt 20)] ∧
  map layer_name (children result) = ["fc"] ∧
  map layer_type (children result) = ["Linear"].
Proof. repeat split. Qed.

Example test_parse_residual_block :
  let result :=
    _parse_layers Examples.keep (Examples.ResidualBlock false) "residual_block" None in
  is_residual_block result = true ∧
  (fusion_type <$> residual_connection result) = Some (PyStr "add") ∧
  (input_source <$> residual_connection result) = Some "block_input" ∧
  (adjust_layer <$> residual_connection result) = Some None ∧
  map layer_name (children result) = ["main1"; "main2"].
Proof. repeat split. Qed.

Example test_parse_residual_with_adjust :
  let result :=
    _parse_layers Examples.keep (Examples.ResidualBlock true) "residual_with_adjust" None in
  (fmap layer_name <$> (adjust_layer <$> residual_connection result))
    = Some (Some "adjust") ∧
  (fmap layer_type <$> (adjust_layer <$> residual_connection result))
    = Some (Some "Linear") ∧
  map layer_name (children result) = ["main1"; "main2"].
Proof. repeat split. Qed.

Example test_recursive_parsing :
  let result := _parse_layers Examples.keep Examples.NestedLayer "nested" None in
  map layer_name (children result) = ["block"] ∧
  map is_residual_block (children result) = [true] ∧
  map (fun n => length (children n)) (children result) = [2%nat] ∧
  map (fun n => input_source <$> residual_connection n) (children result)
    = [Some "nested"].
Proof. repeat split. Qed.

Example adjust_only_block :
  let result := _parse_layers Examples.keep Examples.AdjustOnly "block" (Some "root") in
  is_residual_block result = true ∧
  children result = [] ∧
  (fmap layer_name <$> (adjust_layer <$> residual_connection result))
    = Some (Some "adjust").
Proof. repeat split. Qed.

(** * Further properties *)

(** ** The search helpers of the tests *)

(** Induction over a node with the property known of its children and of
    its adjust layer. *)
Lemma LayerNode_tree_ind (P : LayerNode → Prop) :
  (∀ n,
      Forall P (children n) →
      (∀ rc a, residual_connection n = Some rc → adjust_layer rc = Some a → P a) →
      P n) →
  ∀ n, P n.
Proof.
  intros step. fix IH 1. intros n. apply step.
  - destruct n as [nm ty ps ats flag rc cs]. simpl.
    induction cs as [|c cs IHcs].
    + apply List.Forall_nil.
    + apply List.Forall_cons; [apply IH | apply IHcs].
  - destruct n as [nm ty ps ats flag [[src fus [a|]]|] cs]; simpl.
    + intros rc a' [= <-] [= <-]. apply IH.
    + intros rc a' [= <-] [=].
    + intros rc a' [=].
Qed.

Lemma find_all_by_node n :
  find_all_residual_blocks n = flat_map found_at (nodes n).
Proof.
  induction n as [n IHc IHa] using LayerNode_tree_ind.
  destruct n as [nm ty ps ats flag rc cs]. simpl in *.
  unfold found_at at 1. simpl. rewrite <- !app_assoc. do 2 f_equal.
  rewrite flat_map_app. f_equal.
  - destruct rc as [[src fus [a|]]|]; simpl; [|done|done].
    by apply (IHa _ a eq_refl).
  - clear IHa. induction cs as [|c cs IH]; [done |].
    apply Forall_cons in IHc as [Hc Hcs]. simpl.
    rewrite flat_map_app, Hc, (IH Hcs). done.
Qed.

Lemma has_residual_by_node n :
  has_residual_block n =
  existsb (fun x => is_residual_block x ||
                    is_True (OrderedDict.get "is_residual_block" (attributes x)))
          (nodes n).
Proof.
  induction n as [n IHc IHa] using LayerNode_tree_ind.
  destruct n as [nm ty ps ats flag rc cs]. simpl in *.
  rewrite existsb_app, <- !orb_assoc. do 2 f_equal.
  f_equal.
  - destruct rc as [[src fus [a|]]|]; simpl; [|done|done].
    by apply (IHa _ a eq_refl).
  - clear IHa. induction cs as [|c cs IH]; [done |].
    apply Forall_cons in IHc as [Hc Hcs]. simpl.
    rewrite existsb_app, Hc, (IH Hcs). done.
Qed.

Lemma has_find_all n :
  has_residual_block n = true ↔ find_all_residual_blocks n ≠ [].
Proof.
  rewrite has_residual_by_node, find_all_by_node.
  induction (nodes n) as [|x l IH]; simpl; [done |].
  rewrite orb_true_iff, IH. unfold found_at, find_all_in_attributes.
  destruct (is_residual_block x); simpl; [split; [done | by left] |].
  destruct (is_True _); simpl; [split; [done | by left] |].
  split; [intros [[=]|H]; done | by right].
Qed.

(** X2. The two helpers agree on every tree: [has_residual_block] answers
    true exactly when [find_all_residual_blocks] returns something. *)
Theorem has_iff_find_all_nonempty n :
  has_residual_block n = true ↔ find_all_residual_blocks n ≠ [].
Proof. apply has_find_all. Qed.





(** An attribute named [is_residual_block] that is kept and true makes the
    helpers report a layer that is no residual block. *)
Example kept_flag_attribute_is_found :
  let layer := {| class_name := "Plain";
                  attrs := <["is_residual_block" := PyBool true]> ∅;
                  own_parameters := [];
                  named_children := [] |} in
  let tree := _parse_layers ["is_residual_block"] layer "root" None in
  is_residual_block tree = false ∧
  has_residual_block tree = true ∧
  find_all_residual_blocks tree = [inr [("is_residual_block", PyBool true)]].
Proof. repeat split. Qed.

(** ** Every module is visited once *)

Lemma flat_map_pointwise_perm {A B} (f g : A → list B) l :
  Forall (fun x => f x ≡ₚ g x) l → flat_map f l ≡ₚ flat_map g l.
Proof.
  induction 1 as [|x l Hx _ IH]; simpl; [done |]. by rewrite Hx, IH.
Qed.

Lemma map_flat_map {A B C} (f : B → C) (h : A → list B) l :
  map f (flat_map h l) = flat_map (fun x => map f (h x)) l.
Proof.
  induction l as [|x l IH]; [done |]. simpl. by rewrite map_app, IH.
Qed.

Lemma flat_map_perm {A B} (f : A → list B) l1 l2 :
  l1 ≡ₚ l2 → flat_map f l1 ≡ₚ flat_map f l2.
Proof.
  induction 1 as [|x l1 l2 _ IH|x y l|l1 l2 l3 _ IH1 _ IH2]; simpl.
  - done.
  - by rewrite IH.
  - rewrite !app_assoc. f_equiv. apply Permutation_app_comm.
  - by rewrite IH1.
Qed.

Lemma adjust_children_unique cs :
  NoDup (map fst cs) →
  filter (fun nc => fst nc = "adjust") cs =
    match find_last "adjust" cs with
    | Some c => [("adjust", c)]
    | None => []
    end.
Proof.
  induction cs as [|[cn c] cs IH]; [done |].
  intros [Hnot Hnd]%NoDup_cons. simpl in Hnot. cbn [find_last].
  destruct (decide (cn = "adjust")) as [->|Hne].
  - rewrite filter_cons_True by done.
    rewrite (proj2 (find_last_None _ _) Hnot), String.eqb_refl.
    rewrite (IH Hnd), (proj2 (find_last_None _ _) Hnot). done.
  - rewrite filter_cons_False by done. rewrite (IH Hnd).
    destruct (find_last "adjust" cs); [done |].
    apply String.eqb_neq in Hne. by rewrite Hne.
Qed.

Lemma children_split cs :
  NoDup (map fst cs) →
  cs ≡ₚ (match find_last "adjust" cs with
         | Some c => [("adjust", c)]
         | None => []
         end ++ main_branch_children cs)%list.
Proof.
  intros Hnd. rewrite <- (adjust_children_unique cs Hnd).
  unfold main_branch_children. symmetry.
  apply (filter_app_complement (fun nc => fst nc = "adjust")).
Qed.

Section VisitFacts.

Context {A : Type}.
Variable keep : list string.
Variable of_node : LayerNode → A.
Variable of_module : Module → A.
Hypothesis of_parse :
  ∀ m name parent_input,
    of_node (_parse_layers keep m name parent_input) = of_module m.

Lemma nodes_visit_once layer name parent_input :
  unique_names_throughout layer →
  map of_node (nodes (_parse_layers keep layer name parent_input)) ≡ₚ
  map of_module (submodules layer).
Proof.
  revert name parent_input.
  induction layer as [layer IH] using Module_children_ind.
  intros name parent_input Huniq.
  assert (Hhere : unique_child_names layer ∧
                  ∀ nc, nc ∈ named_children layer →
                        unique_names_throughout (snd nc)).
  { unfold unique_names_throughout in *. destruct layer as [cn a ps cs].
    simpl in *. apply Forall_cons in Huniq as [Hl Hbelow]. split; [done |].
    intros nc Hnc. apply Forall_forall. intros x Hx.
    rewrite Forall_forall in Hbelow. apply Hbelow.
    apply list_elem_of_In, in_flat_map. exists nc.
    split; by apply list_elem_of_In. }
  destruct Hhere as [Hl Hbelow].
  assert (Hsub : map of_module (submodules layer) =
                 of_module layer ::
                 flat_map (fun nc => map of_module (submodules (snd nc)))
                          (named_children layer)).
  { destruct layer as [cn a ps cs]. simpl. f_equal. apply map_flat_map. }
  assert (Hkids : ∀ l ctx,
             (∀ nc, nc ∈ l → nc ∈ named_children layer) →
             map of_node
                 (flat_map nodes
                    (map (fun nc => _parse_layers keep (snd nc) (fst nc) ctx) l))
             ≡ₚ flat_map (fun nc => map of_module (submodules (snd nc))) l).
  { intros l ctx Hin. induction l as [|nc l IHl]; [done |].
    simpl. rewrite map_app. f_equiv.
    - rewrite Forall_forall in IH. apply IH; [apply Hin; left |].
      apply Hbelow, Hin. left.
    - apply IHl. intros x Hx. apply Hin. by right. }
  rewrite Hsub.
  destruct (residual_marker layer) eqn:Hr.
  - rewrite (parse_block keep layer name parent_input Hr).
    cbn [nodes residual_connection adjust_layer children map].
    rewrite <- (parse_block keep layer name parent_input Hr), of_parse.
    f_equiv. rewrite map_app.
    rewrite (flat_map_perm _ _ _ (children_split _ Hl)), flat_map_app.
    f_equiv.
    + destruct (find_last "adjust" (named_children layer)) as [c|] eqn:Hc;
        simpl; [|done].
      rewrite app_nil_r. rewrite Forall_forall in IH.
      apply find_last_elem in Hc.
      apply (IH _ Hc "adjust" parent_input). by apply (Hbelow _ Hc).
    + apply Hkids. intros nc Hnc. by apply main_branch_names in Hnc as [? _].
  - rewrite (parse_plain keep layer name parent_input Hr).
    cbn [nodes residual_connection children map].
    rewrite <- (parse_plain keep layer name parent_input Hr), of_parse.
    f_equiv. simpl. by apply Hkids.
Qed.

End VisitFacts.

(** X4. Where child names are unique throughout the hierarchy, the walk
    visits every module of it exactly once: the nodes of the tree, those
    under adjust layers included, carry the class names, the direct
    parameters and the kept attributes of the modules of the hierarchy, one
    node for each module. *)
Theorem every_module_visited_once keep layer name parent_input :
  unique_names_throughout layer →
  let tree := _parse_layers keep layer name parent_input in
  map (fun n => (layer_type n, parameters n, attributes n)) (nodes tree) ≡ₚ
  map (fun m => (class_name m,
                 OrderedDict.of_items (own_parameters m),
                 _get_layer_attributes keep m)) (submodules layer) ∧
  length (nodes tree) = length (submodules layer).
Proof.
  intros Huniq tree.
  assert (Hp : map (fun n => (layer_type n, parameters n, attributes n)) (nodes tree) ≡ₚ
               map (fun m => (class_name m,
                              OrderedDict.of_items (own_parameters m),
                              _get_layer_attributes keep m)) (submodules layer)).
  { apply nodes_visit_once; [|done].
    intros m name' pi'.
    destruct (parse_info keep m name' pi') as (_ & -> & -> & -> & _).
    by rewrite named_parameters_direct. }
  split; [exact Hp |].
  apply Permutation_length in Hp. by rewrite !length_map in Hp.
Qed.

Lemma every_module_visited_once_witness :
  let tree := _parse_layers Examples.keep Examples.BlockOfBlocks "root" None in
  map (fun n => (layer_type n, parameters n, attributes n)) (nodes tree) ≡ₚ
  map (fun m => (class_name m,
                 OrderedDict.of_items (own_parameters m),
                 _get_layer_attributes Examples.keep m))
      (submodules Examples.BlockOfBlocks) ∧
  length (nodes tree) = length (submodules Examples.BlockOfBlocks).
Proof.
  apply (every_module_visited_once Examples.keep Examples.BlockOfBlocks "root" None).
  apply (bool_decide_unpack _). vm_compute. exact I.
Defined.

(** With a name used twice, a child is lost: of two children named
    [adjust] only the last is in the tree. *)
Example shadowed_adjust_is_not_visited :
  let layer := {| class_name := "Block";
                  attrs := Examples.tagged "add";
                  own_parameters := [];
                  named_children := [("adjust", Examples.Linear 1 1);
                                     ("adjust", Examples.Linear 2 2)] |} in
  length (nodes (_parse_layers Examples.keep layer "root" None)) = 2%nat ∧
  length (submodules layer) = 3%nat.
Proof. split; reflexivity. Qed.




(** ** Input sources across the tree *)

Lemma or_block_input_nonempty parent_input : or_block_input parent_input ≠ "".
Proof.
  destruct parent_input as [s|]; simpl; [|done].
  destruct (String.eqb s "") eqn:E; [done |]. by apply String.eqb_neq.
Qed.

Lemma parse_connection keep layer name parent_input rc :
  residual_connection (_parse_layers keep layer name parent_input) = Some rc →
  residual_marker layer = true ∧
  input_source rc = or_block_input parent_input ∧
  fusion_type rc = fusion_type_of layer.
Proof.
  destruct (residual_marker layer) eqn:Hr.
  - rewrite (parse_block keep layer name parent_input Hr). simpl.
    by intros [= <-].
  - by rewrite (parse_plain keep layer name parent_input Hr).
Qed.

Lemma parse_children_elem keep layer name parent_input c :
  c ∈ children (_parse_layers keep layer name parent_input) →
  ∃ nc, nc ∈ named_children layer ∧
        c = _parse_layers keep (snd nc) (fst nc) (Some name).
Proof.
  destruct (residual_marker layer) eqn:Hr.
  - rewrite (parse_block keep layer name parent_input Hr). simpl.
    intros (nc & <- & Hnc)%list_elem_of_In%in_map_iff.
    apply list_elem_of_In, main_branch_names in Hnc as [Hnc _]. by exists nc.
  - rewrite (parse_plain keep layer name parent_input Hr). simpl.
    intros (nc & <- & Hnc)%list_elem_of_In%in_map_iff.
    apply list_elem_of_In in Hnc. by exists nc.
Qed.

(** X5. In every tree the walk returns, at every node: an [input_source] is
    never the empty string; a child that is a residual block has the name
    of the node above it as its [input_source] (the default where that name
    is empty); and an adjust layer that is a residual block has the
    [input_source] of the block it adjusts. *)
Theorem input_sources_in_tree keep layer name parent_input n :
  n ∈ nodes (_parse_layers keep layer name parent_input) →
  (∀ rc, residual_connection n = Some rc → input_source rc ≠ "") ∧
  (∀ c rc, c ∈ children n → residual_connection c = Some rc →
           input_source rc = or_block_input (Some (layer_name n))) ∧
  (∀ rc a rc', residual_connection n = Some rc → adjust_layer rc = Some a →
               residual_connection a = Some rc' →
               input_source rc' = input_source rc).
Proof.
  intros (m & name' & pi' & _ & ->)%nodes_parse.
  split; [|split].
  - intros rc (_ & -> & _)%parse_connection. apply or_block_input_nonempty.
  - intros c rc (nc & _ & ->)%parse_children_elem (_ & -> & _)%parse_connection.
    by rewrite (proj1 (parse_info keep m name' pi')).
  - intros rc a rc' Hrc Ha Ha'.
    pose proof (parse_connection _ _ _ _ _ Hrc) as (Hr & Hsrc & _).
    rewrite (parse_block keep m name' pi' Hr) in Hrc. simpl in Hrc.
    injection Hrc as <-. simpl in *.
    destruct (find_last "adjust" (named_children m)) as [c|]; [|done].
    simpl in Ha. injection Ha as <-.
    by apply parse_connection in Ha' as (_ & -> & _).
Qed.

Lemma input_sources_in_tree_witness :
  let n := _parse_layers Examples.keep Examples.BlockOfBlocks "root" None in
  (∀ rc, residual_connection n = Some rc → input_source rc ≠ "") ∧
  (∀ c rc, c ∈ children n → residual_connection c = Some rc →
           input_source rc = or_block_input (Some (layer_name n))) ∧
  (∀ rc a rc', residual_connection n = Some rc → adjust_layer rc = Some a →
               residual_connection a = Some rc' →
               input_source rc' = input_source rc).
Proof.
  apply (input_sources_in_tree Examples.keep Examples.BlockOfBlocks "root" None).
  vm_compute. apply list_elem_of_here.
Defined.

(** X6. What [parse(model)] reports at the top: a model that is a residual
    block itself has the default ["block_input"] as its [input_source], its
    adjust layer, where that is a residual block, has the same, and every
    child of the root that is a residual block has ["root"]. *)
Theorem root_input_sources self model root :
  ModelParser.__call__ self (ObjModule model) = Ok root →
  (∀ rc, residual_connection root = Some rc →
         input_source rc = "block_input" ∧
         ∀ a rc', adjust_layer rc = Some a → residual_connection a = Some rc' →
                  input_source rc' = "block_input") ∧
  (∀ c rc, c ∈ children root → residual_connection c = Some rc →
           input_source rc = "root").
Proof.
  unfold ModelParser.__call__.
  destruct (ModelParser.keep_names (ModelParser.attributes_keep self))
    as [names|e]; simpl; [|done].
  intros [= <-]. split.
  - intros rc Hrc.
    pose proof (parse_connection _ _ _ _ _ Hrc) as (Hr & Hsrc & _).
    split; [done |]. intros a rc' Ha Ha'.
    rewrite (parse_block names model "root" None Hr) in Hrc. simpl in Hrc.
    injection Hrc as <-. simpl in Ha.
    destruct (find_last "adjust" (named_children model)) as [c|]; [|done].
    simpl in Ha. injection Ha as <-.
    by apply parse_connection in Ha' as (_ & -> & _).
  - intros c rc (nc & _ & ->)%parse_children_elem (_ & -> & _)%parse_connection.
    done.
Qed.

Lemma root_input_sources_witness :
  let root := _parse_layers Examples.keep Examples.BlockOfBlocks "root" None in
  (∀ rc, residual_connection root = Some rc →
         input_source rc = "block_input" ∧
         ∀ a rc', adjust_layer rc = Some a → residual_connection a = Some rc' →
                  input_source rc' = "block_input") ∧
  (∀ c rc, c ∈ children root → residual_connection c = Some rc →
           input_source rc = "root").
Proof.
  apply (root_input_sources
           (ModelParser.mk (TArray [TStr "in_features"; TStr "out_features"]))
           Examples.BlockOfBlocks).
  reflexivity.
Defined.

(** ** The allow-list as it is configured *)

Lemma keep_names_raises keep e :
  ModelParser.keep_names keep = Raise e → ∃ msg, e = TypeError msg.
Proof.
  destruct keep as [s|z|b|r|items|entries]; simpl; try done;
    try (intros [= <-]; by eexists).
  induction items as [|[s|z|b|r|items'|entries] items IH]; simpl; try done;
    try (intros [= <-]; by eexists).
  destruct (ModelParser.names_of_items items); simpl; [done |].
  intros [= <-]. by apply IH.
Qed.

Lemma init_reads_keep tomllib_load fs config_path content entries keep :
  fs !! config_path = Some (Readable content) →
  tomllib_load content = Some entries →
  keep_field entries = Some keep →
  ModelParser.__init__ tomllib_load fs config_path = Ok (ModelParser.mk keep).
Proof.
  intros Hf Hl Hk. unfold ModelParser.__init__, open_rb.
  rewrite Hf. simpl. rewrite Hl. simpl.
  pose proof (subscript_keep_field entries) as H. rewrite Hk in H.
  simpl in H. destruct (OrderedDict.get "attributes" entries); [|done].
  simpl in *. by rewrite H.
Qed.

(** X7. The constructor does not look at the value under [keep]: with a
    value that cannot be iterated as attribute names (a number, or a list
    holding something that is no string) the parser is built all the same,
    and every later parse of a module raises a type error. *)
Theorem keep_checked_only_when_parsing
        tomllib_load fs config_path content entries keep e :
  fs !! config_path = Some (Readable content) →
  tomllib_load content = Some entries →
  keep_field entries = Some keep →
  ModelParser.keep_names keep = Raise e →
  ∃ self msg,
    ModelParser.__init__ tomllib_load fs config_path = Ok self ∧
    e = TypeError msg ∧
    ∀ model, ModelParser.__call__ self (ObjModule model) = Raise (TypeError msg).
Proof.
  intros Hf Hl Hk He.
  destruct (keep_names_raises keep e He) as [msg ->].
  exists (ModelParser.mk keep), msg.
  split; [by apply (init_reads_keep _ _ _ content entries) |].
  split; [done |]. intros model. simpl. by rewrite He.
Qed.

Lemma keep_checked_only_when_parsing_witness :
  let fs : gmap string File := <["bad.toml" := Readable "x"]> ∅ in
  let load := fun _ : string =>
                Some [("attributes", TTable [("keep", TArray [TStr "a"; TInt 5])])] in
  ∃ self msg,
    ModelParser.__init__ load fs "bad.toml" = Ok self ∧
    TypeError "attribute name must be string" = TypeError msg ∧
    ∀ model, ModelParser.__call__ self (ObjModule model) = Raise (TypeError msg).
Proof.
  intros fs load.
  apply (keep_checked_only_when_parsing load fs "bad.toml" "x"
           [("attributes", TTable [("keep", TArray [TStr "a"; TInt 5])])]
           (TArray [TStr "a"; TInt 5])
           (TypeError "attribute name must be string"));
    reflexivity.
Defined.





(** ** The one-level variant *)

Lemma layer_loop keep cs st :
  fold_left
    (fun st nc =>
       match nc with
       | (child_name, child_module) =>
           if String.eqb child_name "adjust" then
             {| layer_loop_adjust :=
                  Some (_get_layer_info keep child_module child_name);
                layer_loop_main_branch := layer_loop_main_branch st |}
           else
             {| layer_loop_adjust := layer_loop_adjust st;
                layer_loop_main_branch :=
                  layer_loop_main_branch st ++
                  [_get_layer_info keep child_module child_name] |}
       end) cs st =
    {| layer_loop_adjust :=
         match find_last "adjust" cs with
         | Some c => Some (_get_layer_info keep c "adjust")
         | None => layer_loop_adjust st
         end;
       layer_loop_main_branch :=
         layer_loop_main_branch st ++
         map (fun nc => _get_layer_info keep (snd nc) (fst nc))
             (main_branch_children cs) |}.
Proof.
  revert st. induction cs as [|[cn c] cs IH]; intros st.
  - simpl. rewrite app_nil_r. by destruct st.
  - cbn [fold_left find_last]. rewrite IH. unfold main_branch_children.
    destruct (String.eqb cn "adjust") eqn:E.
    + apply String.eqb_eq in E. subst cn.
      rewrite filter_cons_False by (intros H; by apply H).
      cbn [layer_loop_adjust layer_loop_main_branch].
      by destruct (find_last "adjust" cs).
    + apply String.eqb_neq in E.
      rewrite filter_cons_True by done.
      cbn [layer_loop_adjust layer_loop_main_branch map fst snd].
      rewrite <- app_assoc.
      by destruct (find_last "adjust" cs).
Qed.

Lemma info_of_parse keep layer name parent_input :
  info_of (_parse_layers keep layer name parent_input) =
  _get_layer_info keep layer name.
Proof.
  unfold info_of, _get_layer_info.
  by destruct (parse_info keep layer name parent_input) as (-> & -> & -> & -> & _).
Qed.

(** X9. On a module whose residual marker is present and truthy,
    [_parse_residual_layer] agrees with the walk one level deep: the same
    [input_source] and [fusion_type], and for the adjust layer and each
    main-branch child, in the same order, the name, type, parameters and
    attributes the walk's node has; it lists nothing below the children. *)
Theorem one_level_variant_agrees keep layer name parent_input :
  residual_marker layer = true →
  let info := _parse_residual_layer keep layer parent_input in
  let node := _parse_layers keep layer name parent_input in
  rl_is_residual_block info = is_residual_block node ∧
  rl_children info = map info_of (children node) ∧
  ∃ rc,
    residual_connection node = Some rc ∧
    rl_input_source (rl_residual_connection info) = input_source rc ∧
    rl_fusion_type (rl_residual_connection info) = fusion_type rc ∧
    rl_adjust_layer (rl_residual_connection info) = info_of <$> adjust_layer rc.
Proof.
  intros Hr info node. subst info node.
  rewrite (parse_block keep layer name parent_input Hr).
  unfold _parse_residual_layer. rewrite layer_loop. simpl.
  split; [done |]. split.
  - rewrite map_map. apply map_ext. intros nc. by rewrite info_of_parse.
  - eexists. split; [done |]. simpl. split; [done |]. split; [done |].
    destruct (find_last "adjust" (named_children layer)); simpl; [|done].
    by rewrite info_of_parse.
Qed.

Lemma one_level_variant_agrees_witness :
  let layer := Examples.ResidualBlock true in
  let info := _parse_residual_layer Examples.keep layer (Some "root") in
  let node := _parse_layers Examples.keep layer "block" (Some "root") in
  rl_is_residual_block info = is_residual_block node ∧
  rl_children info = map info_of (children node) ∧
  ∃ rc,
    residual_connection node = Some rc ∧
    rl_input_source (rl_residual_connection info) = input_source rc ∧
    rl_fusion_type (rl_residual_connection info) = fusion_type rc ∧
    rl_adjust_layer (rl_residual_connection info) = info_of <$> adjust_layer rc.
Proof.
  apply (one_level_variant_agrees Examples.keep (Examples.ResidualBlock true)
           "block" (Some "root")).
  reflexivity.
Defined.

(** On a module without the marker the two differ: the variant calls it a
    residual block and sets its [adjust] child apart, the walk does
    neither. *)
Example one_level_variant_ignores_marker :
  let layer := {| class_name := "Plain";
                  attrs := ∅;
                  own_parameters := [];
                  named_children := [("adjust", Examples.Linear 1 1)] |} in
  let info := _parse_residual_layer Examples.keep layer None in
  let node := _parse_layers Examples.keep layer "root" None in
  rl_is_residual_block info = true ∧ rl_children info = [] ∧
  is_residual_block node = false ∧ map layer_name (children node) = ["adjust"].
Proof. repeat split. Qed.

(** ** Decorating more than once *)

Lemma decorator_accepts fusion_type classes cls c :
  classes !! cls = Some c → nn_Module ∈ mro c →
  Decorator.residual_block fusion_type classes cls =
    Ok (cls, <[cls := {| mro := mro c;
                         own_init :=
                           Some (NewInit (lookup_init classes (mro c)) fusion_type) |}]>
               classes).
Proof.
  intros Hc Hin.
  unfold Decorator.residual_block, Decorator.decorator.
  assert (E : Decorator.issubclass classes cls nn_Module = Ok true).
  { apply issubclass_spec. by exists c. }
  rewrite E. simpl. unfold set_init, class_init. by rewrite Hc.
Qed.

Lemma lookup_init_head classes cls c rest f :
  classes !! cls = Some c → own_init c = Some f →
  lookup_init classes (cls :: rest) = f.
Proof. intros Hc Hf. simpl. rewrite Hc. destruct c. simpl in Hf. by rewrite Hf. Qed.

(** X10. Stacking. A class decorated with label [L1] and then with [L2] is
    accepted the second time too, and an instance of it is constructed as
    before the first decoration, then given the two fields with [L1], then
    given them again with [L2]: it ends with [residual = True] and
    [fusion_type = L2], the label applied last. *)
Theorem decorated_twice L1 L2 classes cls ret classes1 c rest :
  Decorator.residual_block L1 classes cls = Ok (ret, classes1) →
  classes !! cls = Some c → mro c = cls :: rest → cls ∉ rest →
  ∃ classes2,
    Decorator.residual_block L2 classes1 cls = Ok (cls, classes2) ∧
    (∀ depth args,
        instantiate (S (S depth)) classes2 cls args =
        stamped L2 (stamped L1 (instantiate depth classes cls args))) ∧
    (∀ depth args self,
        instantiate (S (S depth)) classes2 cls args = Some (Ok self) →
        OrderedDict.get "residual" (instance_dict self) = Some (PyBool true) ∧
        OrderedDict.get "fusion_type" (instance_dict self) = Some L2).
Proof.
  intros (c' & Hc' & Hin & -> & ->)%decorator_returns Hc Hmro Hnot.
  rewrite Hc in Hc'. injection Hc' as <-.
  eexists. split.
  { apply (decorator_accepts L2 _ cls _ (lookup_insert_eq _ _ _)). exact Hin. }
  cbn [mro].
  assert (Hrun : ∀ depth args,
             instantiate (S (S depth))
               (<[cls := {| mro := mro c;
                            own_init :=
                              Some (NewInit
                                      (lookup_init
                                         (<[cls := {| mro := mro c;
                                                      own_init :=
                                                        Some (NewInit (lookup_init classes (mro c)) L1) |}]>
                                            classes) (mro c))
                                      L2) |}]>
                  (<[cls := {| mro := mro c;
                               own_init :=
                                 Some (NewInit (lookup_init classes (mro c)) L1) |}]>
                     classes))
               cls args =
             stamped L2 (stamped L1 (instantiate depth classes cls args))).
  { intros depth args. unfold instantiate, class_init.
    rewrite lookup_insert_eq, Hc. cbn [mro]. rewrite !Hmro.
    cbn [lookup_init]. rewrite !lookup_insert_eq. cbn [own_init].
    rewrite !call_new_init. do 2 f_equal.
    rewrite !call_init_unchanged by done.
    cbn [lookup_init]. done. }
  split; [exact Hrun |].
  intros depth args self Hself. rewrite Hrun in Hself.
  destruct (stamped L1 (instantiate depth classes cls args)) as [[self1|e]|];
    simpl in Hself; [|done|done].
  injection Hself as <-. apply stamped_fields.
Qed.

Lemma decorated_twice_witness :
  ∃ classes2,
    Decorator.residual_block (PyStr "concat")
      (<[Examples.A :=
           {| mro := [Examples.A; nn_Module];
              own_init :=
                Some (NewInit (Def Examples.A
                                 (fun args => [SuperInit []; SetAttr "width" (PyTuple args)]))
                              (PyStr "add")) |}]> Examples.classes)
      Examples.A = Ok (Examples.A, classes2) ∧
    (∀ depth args,
        instantiate (S (S depth)) classes2 Examples.A args =
        stamped (PyStr "concat")
                (stamped (PyStr "add") (instantiate depth Examples.classes Examples.A args))) ∧
    (∀ depth args self,
        instantiate (S (S depth)) classes2 Examples.A args = Some (Ok self) →
        OrderedDict.get "residual" (instance_dict self) = Some (PyBool true) ∧
        OrderedDict.get "fusion_type" (instance_dict self) = Some (PyStr "concat")).
Proof.
  apply (decorated_twice (PyStr "add") (PyStr "concat") Examples.classes Examples.A
           Examples.A _
           {| mro := [Examples.A; nn_Module];
              own_init := Some (Def Examples.A
                (fun args => [SuperInit []; SetAttr "width" (PyTuple args)])) |}
           [nn_Module]).
  - reflexivity.
  - reflexivity.
  - reflexivity.
  - intros Hin. apply list_elem_of_In in Hin. simpl in Hin.
    destruct Hin as [H|[]]. discriminate H.
Defined.

(** X11. Decorating two classes neither of which inherits from the other
    gives the same classes in either order. *)
Theorem unrelated_decorations_commute LA LB classes A B ca cb classesA classesB :
  A ≠ B →
  classes !! A = Some ca → classes !! B = Some cb →
  A ∉ mro cb → B ∉ mro ca →
  Decorator.residual_block LA classes A = Ok (A, classesA) →
  Decorator.residual_block LB classes B = Ok (B, classesB) →
  ∃ both,
    Decorator.residual_block LB classesA B = Ok (B, both) ∧
    Decorator.residual_block LA classesB A = Ok (A, both).
Proof.
  intros Hne Ha Hb HAB HBA
         (ca' & Ha' & HinA & _ & ->)%decorator_returns
         (cb' & Hb' & HinB & _ & ->)%decorator_returns.
  rewrite Ha in Ha'. injection Ha' as <-.
  rewrite Hb in Hb'. injection Hb' as <-.
  eexists. split.
  - rewrite (decorator_accepts LB _ B cb); [|by rewrite lookup_insert_ne|done].
    rewrite lookup_init_unchanged by done. reflexivity.
  - rewrite (decorator_accepts LA _ A ca); [|by rewrite lookup_insert_ne|done].
    rewrite lookup_init_unchanged by done.
    by rewrite insert_insert_ne.
Qed.

Lemma unrelated_decorations_commute_witness :
  let base := {| mro := [nn_Module]; own_init := None |} in
  let a := {| mro := [1%nat; nn_Module];
              own_init := Some (Def 1%nat (fun _ => [SetAttr "x" (PyInt 1)])) |} in
  let b := {| mro := [2%nat; nn_Module]; own_init := None |} in
  let classes : gmap classid PyClass :=
    <[nn_Module := base]> (<[1%nat := a]> (<[2%nat := b]> ∅)) in
  ∃ both,
    Decorator.residual_block (PyStr "concat")
      (<[1%nat := {| mro := mro a;
                     own_init := Some (NewInit (lookup_init classes (mro a))
                                               (PyStr "add")) |}]> classes)
      2%nat = Ok (2%nat, both) ∧
    Decorator.residual_block (PyStr "add")
      (<[2%nat := {| mro := mro b;
                     own_init := Some (NewInit (lookup_init classes (mro b))
                                               (PyStr "concat")) |}]> classes)
      1%nat = Ok (1%nat, both).
Proof.
  intros base a b classes.
  apply (unrelated_decorations_commute (PyStr "add") (PyStr "concat")
           classes 1%nat 2%nat a b).
  - discriminate.
  - reflexivity.
  - reflexivity.
  - intros Hin. apply list_elem_of_In in Hin. simpl in Hin.
    destruct Hin as [H|[H|[]]]; discriminate H.
  - intros Hin. apply list_elem_of_In in Hin. simpl in Hin.
    destruct Hin as [H|[H|[]]]; discriminate H.
  - reflexivity.
  - reflexivity.
Defined.

(** Where one class takes its constructor from the other, the order shows:
    decorated after its base, the subclass wraps the constructor that
    stamps already, and its instances are stamped twice; decorated before,
    it wraps the bare one, and they are stamped once. *)
Example related_decorations_do_not_commute :
  ∃ ab ba,
    (∃ a, Decorator.residual_block (PyStr "add") Examples.classes Examples.A
            = Ok (Examples.A, a) ∧
          Decorator.residual_block (PyStr "concat") a Examples.B
            = Ok (Examples.B, ab)) ∧
    (∃ b, Decorator.residual_block (PyStr "concat") Examples.classes Examples.B
            = Ok (Examples.B, b) ∧
          Decorator.residual_block (PyStr "add") b Examples.A
            = Ok (Examples.A, ba)) ∧
    instantiate 4 ab Examples.B [] =
      Some (Ok [("training", PyBool true); ("width", PyTuple []);
                ("residual", PyBool true); ("fusion_type", PyStr "add");
                ("residual", PyBool true); ("fusion_type", PyStr "concat")]) ∧
    instantiate 4 ba Examples.B [] =
      Some (Ok [("training", PyBool true); ("width", PyTuple []);
                ("residual", PyBool true); ("fusion_type", PyStr "concat")]).
Proof.
  eexists. eexists. split; [eexists; split; reflexivity |].
  split; [eexists; split; reflexivity |]. split; reflexivity.
Qed.

(** ** From the decorator to the parser *)

Lemma attrs_of_instance_lookup self k :
  attrs_of_instance self !! k = OrderedDict.get k (instance_dict self).
Proof.
  unfold attrs_of_instance. induction (instance_dict self) as [|[k' v] d IH].
  - done.
  - simpl. destruct (String.eqb k k') eqn:E.
    + apply String.eqb_eq in E. subst. apply lookup_insert_eq.
    + apply String.eqb_neq in E. rewrite lookup_insert_ne by done. apply IH.
Qed.

(** X12. The two components together: an instance of a decorated class, or
    of a subclass that takes its constructor from it, seen as a module by
    the attributes its constructor assigned, is parsed as a residual block
    whose fusion type is the label of the decorator, whatever the label and
    wherever in the model the module stands. *)
Theorem decorated_instance_parsed_as_block
        L classes cls ret classes' sub csub depth args self
        keep layer name parent_input :
  Decorator.residual_block L classes cls = Ok (ret, classes') →
  classes' !! sub = Some csub →
  inherits_init classes' (mro csub) cls →
  instantiate (S depth) classes' sub args = Some (Ok self) →
  attrs layer = attrs_of_instance self →
  let node := _parse_layers keep layer name parent_input in
  residual_marker layer = true ∧
  is_residual_block node = true ∧
  ∃ rc, residual_connection node = Some rc ∧ fusion_type rc = L.
Proof.
  intros (c & Hc & _ & -> & ->)%decorator_returns Hsub Hinh Hself Hattrs node.
  unfold instantiate, class_init in Hself. rewrite Hsub in Hself.
  rewrite (lookup_init_inherited _ _ cls _ _ Hinh (lookup_insert_eq _ _ _) eq_refl)
    in Hself.
  rewrite call_new_init in Hself.
  destruct (call_init depth _ (mro csub) _ args []) as [[self0|e]|];
    simpl in Hself; [|done|done].
  injection Hself as <-.
  destruct (stamped_fields L self0) as [Hres Hfus].
  assert (Hr : residual_marker layer = true).
  { unfold residual_marker, hasattr, getattr.
    by rewrite Hattrs, attrs_of_instance_lookup, Hres. }
  split; [done |]. subst node.
  rewrite (parse_block keep layer name parent_input Hr). simpl.
  split; [done |]. eexists. split; [done |]. simpl.
  unfold fusion_type_of, hasattr, getattr.
  by rewrite Hattrs, attrs_of_instance_lookup, Hfus.
Qed.

Lemma decorated_instance_parsed_as_block_witness :
  let self := [("training", PyBool true); ("width", PyTuple [PyInt 64]);
               ("residual", PyBool true); ("fusion_type", PyStr "")] in
  let layer := {| class_name := "A";
                  attrs := attrs_of_instance self;
                  own_parameters := [];
                  named_children := [("conv", Examples.Linear 3 3)] |} in
  let node := _parse_layers Examples.keep layer "layer1" (Some "root") in
  residual_marker layer = true ∧
  is_residual_block node = true ∧
  ∃ rc, residual_connection node = Some rc ∧ fusion_type rc = PyStr "".
Proof.
  intros self layer.
  eapply (decorated_instance_parsed_as_block
           (PyStr "") Examples.classes Examples.A Examples.A _ Examples.B
           {| mro := [Examples.B; Examples.A; nn_Module]; own_init := None |}
           2%nat [PyInt 64] self Examples.keep layer "layer1" (Some "root")).
  - reflexivity.
  - reflexivity.
  - exists [Examples.B], [nn_Module]. split; [reflexivity |].
    apply Forall_cons. split; [|apply Forall_nil; exact I].
    split; [discriminate | exact I].
  - reflexivity.
  - reflexivity.
Defined.
